(** * The guided tour of the dining calculator (component [Tutorial])

    A shallow embedding of the [Tutorial] React component: its state, the
    three effects it installs, the handlers of its four controls and what
    it renders, followed by the properties of the tour that the
    specification states.

    React state and props are fields of one record; the DOM nodes that the
    host registers for the steps are shared with the host, so their inline
    [style.zIndex] lives in a store indexed by node, and the registry
    [tutorialRefs.value] holds references into it.  A JavaScript
    [TypeError] (reading a property of [undefined]) is the [None] of the
    option monad. *)

From stdpp Require Import gmap strings list fin_maps pretty.

#[local] Set Warnings "-clear-no-such-hyp".

(** ** Data model *)

(** [position] of a step: the string literals ['start'], ['center'] and
    ['end']. *)
Inductive Position := pos_start | pos_center | pos_end.

#[global] Instance Position_eq_dec : EqDecision Position.
Proof. solve_decision. Defined.

(** The spelling of a position, as passed to [scrollIntoView]'s [block]. *)
Definition block_name (p : Position) : string :=
  match p with
  | pos_start => "start"
  | pos_center => "center"
  | pos_end => "end"
  end.

(** One entry of [tutorialSteps].  The optional [action] content is opaque
    to the component (it is only rendered) and is left out. *)
Record Step := mkStep {
  title : string;
  description : string;
  position : Position
}.

(** One value of the [tooltip] dictionary. *)
Record TooltipInfo := mkInfo {
  info_title : string;
  info_text : string
}.

(** A DOM node of the host, by identity. *)
Definition Element := nat.

(** Inline style of the tooltip node ([tutorialTooltipRef.current]). *)
Record TooltipStyle := mkStyle {
  css_position : string;
  css_transform : string;
  css_order : string
}.

(** The receiver of a [scrollIntoView] call. *)
Inductive ScrollTarget :=
  | TooltipNode
  | HostNode (e : Element).

(** One call [target.scrollIntoView({ behavior, block })]. *)
Record ScrollCall := mkScroll {
  scroll_target : ScrollTarget;
  scroll_behavior : string;
  scroll_block : string
}.

(** Everything the component reads or writes. *)
Record World := mkWorld {
  step : nat;                             (* prop [step] *)
  show : bool;                            (* prop [show] *)
  areDetailsEntered : bool;               (* prop [areDetailsEntered] *)
  showDetails : bool;                     (* [useState(false)] *)
  storage : gmap string bool;             (* behind [usePersistentState] *)
  tutorialRefs : list (option Element);   (* [tutorialRefs.value] *)
  zIndex : gmap Element string;           (* [style.zIndex] of host nodes *)
  tooltipStyle : TooltipStyle;            (* style of the tooltip node *)
  scrolled : list ScrollCall              (* calls so far, oldest first *)
}.

Definition setStep (n : nat) (w : World) : World :=
  mkWorld n (show w) (areDetailsEntered w) (showDetails w) (storage w)
          (tutorialRefs w) (zIndex w) (tooltipStyle w) (scrolled w).

Definition setShow (b : bool) (w : World) : World :=
  mkWorld (step w) b (areDetailsEntered w) (showDetails w) (storage w)
          (tutorialRefs w) (zIndex w) (tooltipStyle w) (scrolled w).

Definition setAreDetailsEntered (b : bool) (w : World) : World :=
  mkWorld (step w) (show w) b (showDetails w) (storage w)
          (tutorialRefs w) (zIndex w) (tooltipStyle w) (scrolled w).

Definition setShowDetails (b : bool) (w : World) : World :=
  mkWorld (step w) (show w) (areDetailsEntered w) b (storage w)
          (tutorialRefs w) (zIndex w) (tooltipStyle w) (scrolled w).

Definition setStorage (s : gmap string bool) (w : World) : World :=
  mkWorld (step w) (show w) (areDetailsEntered w) (showDetails w) s
          (tutorialRefs w) (zIndex w) (tooltipStyle w) (scrolled w).

Definition setTutorialRefs (r : list (option Element)) (w : World) : World :=
  mkWorld (step w) (show w) (areDetailsEntered w) (showDetails w) (storage w)
          r (zIndex w) (tooltipStyle w) (scrolled w).

Definition setZIndexes (z : gmap Element string) (w : World) : World :=
  mkWorld (step w) (show w) (areDetailsEntered w) (showDetails w) (storage w)
          (tutorialRefs w) z (tooltipStyle w) (scrolled w).

Definition setTooltipStyle (t : TooltipStyle) (w : World) : World :=
  mkWorld (step w) (show w) (areDetailsEntered w) (showDetails w) (storage w)
          (tutorialRefs w) (zIndex w) t (scrolled w).

Definition setScrolled (l : list ScrollCall) (w : World) : World :=
  mkWorld (step w) (show w) (areDetailsEntered w) (showDetails w) (storage w)
          (tutorialRefs w) (zIndex w) (tooltipStyle w) l.

(** [e.style.zIndex]: the empty string until something assigns it. *)
Definition zIndexOf (w : World) (e : Element) : string :=
  default "" (zIndex w !! e).

(** [e.style.zIndex = v] *)
Definition assignZIndex (e : Element) (v : string) (w : World) : World :=
  setZIndexes (<[e := v]> (zIndex w)) w.

(** [target.scrollIntoView({ behavior: 'smooth', block })] *)
Definition scrollIntoView (t : ScrollTarget) (block : string) (w : World) : World :=
  setScrolled (scrolled w ++ [mkScroll t "smooth" block]) w.

(** The two priorities the component writes. *)
Definition elevated_priority : string := "50".
Definition baseline_priority : string := "0".

(** Modelled from the spec: the hook [usePersistentState(key, initial)] of
    [hooks/usePersistentState], the persistent store of the specification.
    Its store is a durable map from keys to booleans; reading a key that
    was never written gives the initial value passed at the call, here
    [true] for the key ['isNewUser']. *)
Definition isNewUser (w : World) : bool :=
  default true (storage w !! "isNewUser").

(** Modelled from the spec: the setter returned by [usePersistentState]
    writes the value under the key. *)
Definition setIsNewUser (b : bool) (w : World) : World :=
  setStorage (<["isNewUser" := b]> (storage w)) w.

(** ** A sample tour

    A catalog with the positions center, start, end, start, a dictionary
    with details for one step, and a state in which the steps 0, 1 and 2
    have a node registered. *)
Definition sampleSteps : list Step :=
  [ mkStep "Welcome" "A short tour." pos_center;
    mkStep "Meal Plan Info" "Enter your plan." pos_start;
    mkStep "Menu" "Pick your meals." pos_end;
    mkStep "Results" "See what is left." pos_start ].

Definition sampleTooltip : list TooltipInfo :=
  [ mkInfo "Meal Plan Info" " The dates are those of the semester." ].

Definition sampleWorld (i : nat) (visible expanded : bool) : World :=
  mkWorld i visible false expanded ∅ [Some 10; Some 11; Some 12; None] ∅
          (mkStyle "" "" "") [].

(** ** The component *)

Section Tutorial.

(** The catalog [tutorialSteps] and the dictionary [Object.values(tooltip)]
    are static tables imported by the component. *)
Variable tutorialSteps : list Step.
Variable tooltip : list TooltipInfo.

(** [moreDetails]: the text of the dictionary entry with the title of the
    current step, [undefined] (inner [None]) when there is none. *)
Definition moreDetails (w : World) : option (option string) :=
  s ← tutorialSteps !! step w;
  Some (info_text <$>
          find (λ info, bool_decide (info_title info = title s)) tooltip).

(** The validation rules of [isStepComplete]: one rule, whose check returns
    the prop [areDetailsEntered]. *)
Definition validations (w : World) : list (string * bool) :=
  [("Meal Plan Info", areDetailsEntered w)].

(** [isStepComplete]: [!validation || validation.check()]. *)
Definition isStepComplete (w : World) : option bool :=
  s ← tutorialSteps !! step w;
  let validation :=
    find (λ validation, bool_decide (validation.1 = title s)) (validations w) in
  Some (match validation with
        | None => true
        | Some v => v.2
        end).

(** [resetPrevDiv(i)].  An index outside the array reads [undefined], which
    is not [null], so that the assignment to its [style] throws. *)
Definition resetPrevDiv (i : nat) (w : World) : option World :=
  match tutorialRefs w !! i with
  | Some (Some div) => Some (assignZIndex div baseline_priority w)
  | Some None => Some w
  | None => None
  end.

(** First effect: auto-show for a new user.  [setShow] and [setIsNewUser]
    only schedule a render, see [commit]. *)
Definition autoShowEffect (w : World) : World :=
  if isNewUser w then setIsNewUser false (setShow true w) else w.

(** Second effect, the part that raises the node of the current step:
    returns the local [div] with the world. *)
Definition emphasize (w : World) : option (option Element * World) :=
  match tutorialRefs w !! step w with
  | Some (Some div) => Some (Some div, assignZIndex div elevated_priority w)
  | Some None => Some (None, w)
  | None => None
  end.

(** [tutorialSteps.slice(0, step).reduce((p, c) => p + (c.position ===
    'center' ? 1 : 0), 0)] *)
Definition centersBefore (i : nat) : Z :=
  fold_left (λ p c, (p + (if decide (position c = pos_center) then 1 else 0))%Z)
            (take i tutorialSteps) 0%Z.

(** The number that the template literal of [tooltip.style.order] prints. *)
Definition orderOf (i : nat) : Z :=
  (1 + Z.of_nat i - centersBefore i)%Z.

(** The receiver of [scrollIntoView] in the inline branch. *)
Definition scrollTarget (div : option Element) (p : Position) : ScrollTarget :=
  match div, p with
  | Some e, pos_end => HostNode e
  | _, _ => TooltipNode
  end.

(** Second effect, the part that places the tooltip and scrolls; [div] is
    the local variable left by the first part. *)
Definition placeTooltip (s : Step) (div : option Element) (w : World) : World :=
  if decide (position s ≠ pos_center) then
    scrollIntoView (scrollTarget div (position s)) (block_name (position s))
      (setTooltipStyle (mkStyle "static" "" (pretty (orderOf (step w)))) w)
  else
    scrollIntoView TooltipNode "center"
      (setTooltipStyle
         (mkStyle "absolute" "translate(-50%, -50%)"
                  (css_order (tooltipStyle w))) w).

(** Second effect, whole. *)
Definition positionEffect (w : World) : option World :=
  s ← tutorialSteps !! step w;
  '(div, w1) ← emphasize w;
  Some (placeTooltip s div w1).

(** Third effect: [if (!show) resetPrevDiv(step)]. *)
Definition hiddenEffect (w : World) : option World :=
  if show w then Some w else resetPrevDiv (step w) w.

(** *** Handlers of the controls *)

(** Close button. *)
Definition onClose (w : World) : option World :=
  Some (setShow false w).

(** The "more details" link. *)
Definition onToggleDetails (w : World) : option World :=
  Some (setShowDetails (negb (showDetails w)) w).

(** Previous button. *)
Definition onPrevious (w : World) : option World :=
  w1 ← resetPrevDiv (step w) w;
  Some (if decide (step w ≠ 0) then setStep (step w - 1) w1 else w1).

(** Next / Finish button. *)
Definition onNext (w : World) : option World :=
  w1 ← resetPrevDiv (step w) w;
  Some (if decide (step w + 1 = length tutorialSteps)
        then setShow false w1
        else setStep (step w + 1) w1).

(** *** What the component renders

    Only the attributes that decide which controls can be used. *)
Record View := mkView {
  view_hidden : bool;          (* class [hidden] on overlay and tooltip *)
  view_title : string;
  view_counter : nat * nat;    (* [(step + 1 / tutorialSteps.length)] *)
  view_text : string;          (* description, then the details if shown *)
  view_toggleHidden : bool;    (* class [hidden] on the details link *)
  view_toggleLabel : string;
  view_prevHidden : bool;      (* class [hidden] on Previous *)
  view_nextTitle : string;
  view_nextDisabled : bool     (* [disabled] of Next / Finish *)
}.

Definition render (w : World) : option View :=
  s ← tutorialSteps !! step w;
  details ← moreDetails w;
  complete ← isStepComplete w;
  Some {|
    view_hidden := negb (show w);
    view_title := title s;
    view_counter := (step w + 1, length tutorialSteps);
    view_text :=
      description s +:+ (if showDetails w then default "" details else "");
    view_toggleHidden :=
      match details with
      | Some text => bool_decide (text = "")
      | None => true
      end;
    view_toggleLabel :=
      if showDetails w then "fewer details" else "more details...";
    view_prevHidden := bool_decide (step w = 0);
    view_nextTitle :=
      if decide (step w + 1 = length tutorialSteps) then "Finish" else "Next";
    view_nextDisabled := negb complete
  |}.

(** *** Renders and effects

    An effect runs after a render when one of its dependencies differs
    from the previous render.  The second effect depends on [step], [show]
    and [tutorialRefs.value]; the third on [resetPrevDiv] (which is rebuilt
    when [tutorialRefs] changes), [show] and [step]; the first on
    [isNewUser] and on two setters. *)
Record Changed := mkChanged {
  ch_isNewUser : bool;
  ch_step : bool;
  ch_show : bool;
  ch_refs : bool
}.

(** On mount every effect runs. *)
Definition allChanged : Changed := mkChanged true true true true.

(** What differs between two renders of the same registry. *)
Definition changed (old new : World) : Changed :=
  {| ch_isNewUser := negb (bool_decide (isNewUser old = isNewUser new));
     ch_step := negb (bool_decide (step old = step new));
     ch_show := negb (bool_decide (show old = show new));
     ch_refs := false |}.

(** The same when the host has replaced the registry. *)
Definition changedRefs (old new : World) : Changed :=
  {| ch_isNewUser := ch_isNewUser (changed old new);
     ch_step := ch_step (changed old new);
     ch_show := ch_show (changed old new);
     ch_refs := true |}.

Definition layoutChanged (c : Changed) : bool :=
  ch_step c || ch_show c || ch_refs c.

(** The effects of one render.  The second and third effect only write to
    the DOM; the first only schedules [setShow(true)] and
    [setIsNewUser(false)], which the other two, closed over the values of
    this render, do not see: its updates are therefore applied last. *)
Definition commit (c : Changed) (w : World) : option World :=
  w1 ← (if layoutChanged c then positionEffect w else Some w);
  w2 ← (if layoutChanged c then hiddenEffect w1 else Some w1);
  Some (if ch_isNewUser c then autoShowEffect w2 else w2).

(** A render, and the render that the first effect may have scheduled. *)
Definition settle (c : Changed) (w : World) : option World :=
  w1 ← commit c w;
  commit (changed w w1) w1.

(** Mounting the component. *)
Definition mount (w : World) : option World :=
  settle allChanged w.

(** *** Events *)

(** Modelled from the spec: the host of the component, which owns the
    props and the registry of [TutorialElementsCtx].  The host shows the
    tour ([show()]), supplies the validation boolean, and registers or
    unregisters the node of a step; a registry update gives the component
    a new [tutorialRefs].  The four clicks are the controls of the
    component itself. *)
Inductive Event :=
  | ClickClose
  | ClickDetails
  | ClickPrevious
  | ClickNext
  | HostShow
  | HostDetailsEntered (b : bool)
  | HostRegister (i : nat) (e : Element)
  | HostUnregister (i : nat).

(** The state update of an event. *)
Definition handle (ev : Event) (w : World) : option World :=
  match ev with
  | ClickClose => onClose w
  | ClickDetails => onToggleDetails w
  | ClickPrevious => onPrevious w
  | ClickNext => onNext w
  | HostShow => Some (setShow true w)
  | HostDetailsEntered b => Some (setAreDetailsEntered b w)
  | HostRegister i e => Some (setTutorialRefs (<[i := Some e]> (tutorialRefs w)) w)
  | HostUnregister i => Some (setTutorialRefs (<[i := None]> (tutorialRefs w)) w)
  end.

Definition triggered (ev : Event) (old new : World) : Changed :=
  match ev with
  | HostRegister _ _ | HostUnregister _ => changedRefs old new
  | _ => changed old new
  end.

(** An event, then the renders it causes. *)
Definition dispatch (ev : Event) (w : World) : option World :=
  w' ← handle ev w;
  settle (triggered ev w w') w'.

(** The four operations of the tour on its controls. *)
Definition close : World → option World := dispatch ClickClose.
Definition previous : World → option World := dispatch ClickPrevious.
Definition next : World → option World := dispatch ClickNext.
Definition toggleDetails : World → option World := dispatch ClickDetails.

(** Whether the rendered tree lets the user fire the event: the tooltip
    and all its controls are hidden with the tour, Previous is hidden on
    the first step, the details link is hidden without details, and Next
    is disabled while the step is incomplete. *)
Definition offered (w : World) (ev : Event) : bool :=
  match ev with
  | ClickClose =>
      match render w with
      | Some v => negb (view_hidden v)
      | None => false
      end
  | ClickDetails =>
      match render w with
      | Some v => negb (view_hidden v) && negb (view_toggleHidden v)
      | None => false
      end
  | ClickPrevious =>
      match render w with
      | Some v => negb (view_hidden v) && negb (view_prevHidden v)
      | None => false
      end
  | ClickNext =>
      match render w with
      | Some v => negb (view_hidden v) && negb (view_nextDisabled v)
      | None => false
      end
  | _ => true
  end.

(** What is assumed of the host: a node is registered for a step of the
    catalog, is registered once, and does not come with the raised
    priority, which only this component assigns. *)
Definition hostAdmits (w : World) (ev : Event) : bool :=
  match ev with
  | HostRegister i e =>
      bool_decide (i < length tutorialSteps)
      && bool_decide (Some e ∉ tutorialRefs w)
      && bool_decide (zIndexOf w e ≠ elevated_priority)
  | _ => true
  end.

(** The state in which the component is mounted: a step of the catalog, a
    registry with one slot per step and no node in two slots, details
    collapsed, and no registered node raised yet. *)
Record initial (w : World) : Prop := mkInitial {
  initial_step : step w < length tutorialSteps;
  initial_slots : length (tutorialRefs w) = length tutorialSteps;
  initial_details : showDetails w = false;
  initial_distinct : ∀ i j e,
    tutorialRefs w !! i = Some (Some e) →
    tutorialRefs w !! j = Some (Some e) → i = j;
  initial_baseline : ∀ i e,
    tutorialRefs w !! i = Some (Some e) → zIndexOf w e ≠ elevated_priority
}.

(** States reached from a mount by events that [allowed] admits. *)
Inductive reachableBy (allowed : World → Event → bool) : World → Prop :=
  | reach_mount w0 w :
      initial w0 → mount w0 = Some w → reachableBy allowed w
  | reach_event w ev w' :
      reachableBy allowed w → allowed w ev = true →
      dispatch ev w = Some w' → reachableBy allowed w'.

(** Every operation of the tour, invoked at any time. *)
Definition reachable : World → Prop :=
  reachableBy hostAdmits.

(** Only what the rendered controls let through. *)
Definition uiReachable : World → Prop :=
  reachableBy (λ w ev, hostAdmits w ev && offered w ev).

(** *** The emphasis of a state *)

Definition registered (w : World) (e : Element) : Prop :=
  ∃ i, tutorialRefs w !! i = Some (Some e).

Definition elevated (w : World) (e : Element) : Prop :=
  zIndexOf w e = elevated_priority.

(** The property of a visible state that the specification asks for. *)
Definition emphasisOk (w : World) : Prop :=
  (∀ e1 e2, registered w e1 → elevated w e1 →
            registered w e2 → elevated w e2 → e1 = e2)
  ∧ (∀ e, tutorialRefs w !! step w = Some (Some e) → elevated w e)
  ∧ (tutorialRefs w !! step w = Some None →
     ∀ e, registered w e → ¬ elevated w e).

(** *** The ordering formula in the words of the specification *)

(** The count of steps before [i] whose position is center. *)
Definition centerCount (i : nat) : nat :=
  length (filter (λ s, position s = pos_center) (take i tutorialSteps)).

(** *** Well-formed states *)

(** The current step is a step of the catalog and has a slot in the
    registry, as has every other step: nothing reads [undefined]. *)
Definition ready (w : World) : Prop :=
  step w < length tutorialSteps
  ∧ length tutorialSteps ≤ length (tutorialRefs w).

(** The invariant of the tour: the registry holds no node twice, only the
    node of the current step can be raised, and it is raised while the
    tour is visible. *)
Record consistent (w : World) : Prop := mkConsistent {
  cons_ready : ready w;
  cons_distinct : ∀ i j e,
    tutorialRefs w !! i = Some (Some e) →
    tutorialRefs w !! j = Some (Some e) → i = j;
  cons_only : ∀ e,
    registered w e → elevated w e →
    tutorialRefs w !! step w = Some (Some e);
  cons_current :
    show w = true →
    ∀ e, tutorialRefs w !! step w = Some (Some e) → elevated w e
}.

(** Previous invoked on the first step of a visible tour: a use of a
    control that the rendered tree never offers (Previous is hidden on
    step 0). *)
Definition previousOnVisibleFirstStep (w : World) (ev : Event) : bool :=
  match ev with
  | ClickPrevious => show w && bool_decide (step w = 0)
  | _ => false
  end.

(** States reached from a mount by the events of the host and by every
    use of a control, offered or not, except that one. *)
Definition tourReachable : World → Prop :=
  reachableBy (λ w ev,
                 hostAdmits w ev && negb (previousOnVisibleFirstStep w ev)).

(** While the tour is hidden the node of the current step is not raised. *)
Definition hiddenOk (w : World) : Prop :=
  show w = false →
  ∀ e, tutorialRefs w !! step w = Some (Some e) → ¬ elevated w e.

(** [n] uses of the Next / Finish control in a row. *)
Fixpoint nextTimes (n : nat) (w : World) : option World :=
  match n with
  | 0 => Some w
  | S n => w1 ← next w; nextTimes n w1
  end.

(** The number of steps before [i] that are rendered inline (not centered). *)
Definition inlineBefore (i : nat) : nat :=
  length (filter (λ s, position s ≠ pos_center) (take i tutorialSteps)).

(** ** Properties *)

(** *** Reading the store of inline priorities *)

Lemma zIndexOf_assign e v w e' :
  zIndexOf (assignZIndex e v w) e' = if decide (e = e') then v else zIndexOf w e'.
Proof.
  unfold zIndexOf, assignZIndex; simpl.
  rewrite lookup_insert. by case_decide.
Qed.

Lemma assign_assign e v1 v2 w :
  assignZIndex e v2 (assignZIndex e v1 w) = assignZIndex e v2 w.
Proof.
  unfold assignZIndex, setZIndexes; simpl. by rewrite insert_insert_eq.
Qed.

(** *** The primitive operations *)

Lemma resetPrevDiv_total i w :
  i < length (tutorialRefs w) → is_Some (resetPrevDiv i w).
Proof.
  intros Hi. unfold resetPrevDiv.
  destruct (lookup_lt_is_Some_2 _ _ Hi) as [[e|] ->]; eauto.
Qed.

Lemma resetPrevDiv_frame i w w' :
  resetPrevDiv i w = Some w' →
  step w' = step w ∧ show w' = show w ∧ showDetails w' = showDetails w
  ∧ areDetailsEntered w' = areDetailsEntered w ∧ storage w' = storage w
  ∧ tutorialRefs w' = tutorialRefs w ∧ tooltipStyle w' = tooltipStyle w
  ∧ scrolled w' = scrolled w.
Proof.
  unfold resetPrevDiv. intros H.
  destruct (tutorialRefs w !! i) as [[e|]|]; simplify_eq/=; done.
Qed.

Lemma resetPrevDiv_zIndex i w w' :
  resetPrevDiv i w = Some w' →
  ∀ e, zIndexOf w' e =
       if decide (tutorialRefs w !! i = Some (Some e))
       then baseline_priority else zIndexOf w e.
Proof.
  unfold resetPrevDiv. intros H e.
  destruct (tutorialRefs w !! i) as [[d|]|] eqn:E; simplify_eq/=.
  - rewrite zIndexOf_assign. repeat case_decide; naive_solver.
  - repeat case_decide; naive_solver.
Qed.

Lemma emphasize_total w :
  step w < length (tutorialRefs w) → is_Some (emphasize w).
Proof.
  intros Hi. unfold emphasize.
  destruct (lookup_lt_is_Some_2 _ _ Hi) as [[e|] ->]; eauto.
Qed.

Lemma emphasize_frame w div w' :
  emphasize w = Some (div, w') →
  tutorialRefs w !! step w = Some div
  ∧ step w' = step w ∧ show w' = show w ∧ showDetails w' = showDetails w
  ∧ areDetailsEntered w' = areDetailsEntered w ∧ storage w' = storage w
  ∧ tutorialRefs w' = tutorialRefs w ∧ tooltipStyle w' = tooltipStyle w
  ∧ scrolled w' = scrolled w.
Proof.
  unfold emphasize. intros H.
  destruct (tutorialRefs w !! step w) as [[e|]|]; simplify_eq/=; done.
Qed.

Lemma emphasize_zIndex w div w' :
  emphasize w = Some (div, w') →
  ∀ e, zIndexOf w' e =
       if decide (tutorialRefs w !! step w = Some (Some e))
       then elevated_priority else zIndexOf w e.
Proof.
  unfold emphasize. intros H e.
  destruct (tutorialRefs w !! step w) as [[d|]|] eqn:E; simplify_eq/=.
  - rewrite zIndexOf_assign. repeat case_decide; naive_solver.
  - repeat case_decide; naive_solver.
Qed.

Lemma positionEffect_total w :
  ready w → is_Some (positionEffect w).
Proof.
  intros [Hs Hr]. unfold positionEffect.
  destruct (lookup_lt_is_Some_2 _ _ Hs) as [s ->]; simpl.
  destruct (emphasize_total w) as [[div w1] ->]; [lia|]. simpl. eauto.
Qed.

Lemma positionEffect_frame w w' :
  positionEffect w = Some w' →
  step w' = step w ∧ show w' = show w ∧ showDetails w' = showDetails w
  ∧ areDetailsEntered w' = areDetailsEntered w ∧ storage w' = storage w
  ∧ tutorialRefs w' = tutorialRefs w.
Proof.
  unfold positionEffect. intros H.
  destruct (tutorialSteps !! step w) as [s|]; simplify_eq/=.
  destruct (emphasize w) as [[div w1]|] eqn:E; simplify_eq/=.
  apply emphasize_frame in E as (_ & ? & ? & ? & ? & ? & ? & _).
  unfold placeTooltip. by case_decide.
Qed.

Lemma positionEffect_zIndex w w' :
  positionEffect w = Some w' →
  ∀ e, zIndexOf w' e =
       if decide (tutorialRefs w !! step w = Some (Some e))
       then elevated_priority else zIndexOf w e.
Proof.
  unfold positionEffect. intros H e.
  destruct (tutorialSteps !! step w) as [s|]; simplify_eq/=.
  destruct (emphasize w) as [[div w1]|] eqn:E; simplify_eq/=.
  rewrite <- (emphasize_zIndex _ _ _ E e).
  unfold placeTooltip. by case_decide.
Qed.

Lemma hiddenEffect_total w :
  step w < length (tutorialRefs w) → is_Some (hiddenEffect w).
Proof.
  intros H. unfold hiddenEffect. destruct (show w); eauto.
  by apply resetPrevDiv_total.
Qed.

Lemma hiddenEffect_frame w w' :
  hiddenEffect w = Some w' →
  step w' = step w ∧ show w' = show w ∧ showDetails w' = showDetails w
  ∧ areDetailsEntered w' = areDetailsEntered w ∧ storage w' = storage w
  ∧ tutorialRefs w' = tutorialRefs w ∧ tooltipStyle w' = tooltipStyle w
  ∧ scrolled w' = scrolled w.
Proof.
  unfold hiddenEffect. destruct (show w) eqn:E.
  - by intros [= <-].
  - intros H. apply resetPrevDiv_frame in H. naive_solver.
Qed.

Lemma hiddenEffect_zIndex w w' :
  hiddenEffect w = Some w' →
  ∀ e, zIndexOf w' e =
       if decide (show w = false ∧ tutorialRefs w !! step w = Some (Some e))
       then baseline_priority else zIndexOf w e.
Proof.
  unfold hiddenEffect. intros H e. destruct (show w) eqn:E.
  - simplify_eq. case_decide; naive_solver.
  - rewrite (resetPrevDiv_zIndex _ _ _ H). repeat case_decide; naive_solver.
Qed.

(** *** Renders *)

Lemma autoShowEffect_frame w :
  step (autoShowEffect w) = step w
  ∧ showDetails (autoShowEffect w) = showDetails w
  ∧ areDetailsEntered (autoShowEffect w) = areDetailsEntered w
  ∧ tutorialRefs (autoShowEffect w) = tutorialRefs w
  ∧ zIndex (autoShowEffect w) = zIndex w
  ∧ show (autoShowEffect w) = show w || isNewUser w
  ∧ isNewUser (autoShowEffect w) = false.
Proof.
  unfold autoShowEffect. destruct (isNewUser w) eqn:E; simpl.
  - repeat split; try done.
    + by rewrite orb_true_r.
    + unfold isNewUser; simpl. by rewrite lookup_insert_eq.
  - repeat split; try done. by rewrite orb_false_r.
Qed.

Lemma commit_total c w : ready w → is_Some (commit c w).
Proof.
  intros Hr. unfold commit. destruct (layoutChanged c); simpl; [|eauto].
  destruct (positionEffect_total w Hr) as [w1 E1]. rewrite E1; simpl.
  destruct (positionEffect_frame _ _ E1) as (Hs & _ & _ & _ & _ & Hrefs).
  destruct (hiddenEffect_total w1) as [w2 ->]; [|simpl; eauto].
  rewrite Hs, Hrefs. destruct Hr; lia.
Qed.

Lemma commit_frame c w w' :
  commit c w = Some w' →
  step w' = step w ∧ showDetails w' = showDetails w
  ∧ areDetailsEntered w' = areDetailsEntered w
  ∧ tutorialRefs w' = tutorialRefs w
  ∧ show w' = show w || (ch_isNewUser c && isNewUser w)
  ∧ isNewUser w' = isNewUser w && negb (ch_isNewUser c).
Proof.
  unfold commit. intros H.
  assert (∃ w2, w' = (if ch_isNewUser c then autoShowEffect w2 else w2)
                ∧ step w2 = step w ∧ showDetails w2 = showDetails w
                ∧ areDetailsEntered w2 = areDetailsEntered w
                ∧ tutorialRefs w2 = tutorialRefs w
                ∧ show w2 = show w ∧ storage w2 = storage w)
    as (w2 & -> & Hs & Hd & Ha & Hrefs & Hsh & Hst).
  { destruct (layoutChanged c); simplify_eq/=; [|by eexists].
    destruct (positionEffect w) as [w1|] eqn:E1; simplify_eq/=.
    destruct (hiddenEffect w1) as [w2|] eqn:E2; simplify_eq/=.
    exists w2. apply positionEffect_frame in E1. apply hiddenEffect_frame in E2.
    split; [done|]. naive_solver congruence. }
  assert (isNewUser w2 = isNewUser w) as Hn by (unfold isNewUser; by rewrite Hst).
  destruct (ch_isNewUser c); simpl.
  - destruct (autoShowEffect_frame w2) as (-> & -> & -> & -> & _ & -> & ->).
    rewrite Hn, Hsh, andb_false_r. done.
  - rewrite orb_false_r, andb_true_r. done.
Qed.

Lemma commit_zIndex c w w' :
  commit c w = Some w' →
  ∀ e, zIndexOf w' e =
       if decide (layoutChanged c = true
                  ∧ tutorialRefs w !! step w = Some (Some e))
       then (if show w then elevated_priority else baseline_priority)
       else zIndexOf w e.
Proof.
  unfold commit. intros H e.
  assert (∀ w2, zIndexOf (if ch_isNewUser c then autoShowEffect w2 else w2) e
                = zIndexOf w2 e) as Hauto.
  { intros w2. destruct (ch_isNewUser c); [|done].
    unfold zIndexOf. by destruct (autoShowEffect_frame w2) as (_&_&_&_&->&_). }
  destruct (layoutChanged c); simplify_eq/=.
  - destruct (positionEffect w) as [w1|] eqn:E1; simplify_eq/=.
    destruct (hiddenEffect w1) as [w2|] eqn:E2; simplify_eq/=.
    rewrite Hauto, (hiddenEffect_zIndex _ _ E2), (positionEffect_zIndex _ _ E1).
    destruct (positionEffect_frame _ _ E1) as (-> & -> & _ & _ & _ & ->).
    destruct (show w); repeat case_decide; naive_solver.
  - rewrite Hauto. repeat case_decide; naive_solver.
Qed.

Lemma ready_frame w w' :
  step w' = step w → tutorialRefs w' = tutorialRefs w → ready w → ready w'.
Proof. unfold ready. by intros -> ->. Qed.

Lemma layoutChanged_changed w w1 :
  step w1 = step w →
  layoutChanged (changed w w1) = negb (bool_decide (show w = show w1)).
Proof.
  intros Hs. unfold layoutChanged, changed; simpl.
  rewrite (bool_decide_eq_true_2 (step w = step w1)); [|done].
  by rewrite orb_false_r.
Qed.

Lemma settle_total c w : ready w → is_Some (settle c w).
Proof.
  intros Hr. unfold settle.
  destruct (commit_total c w Hr) as [w1 E1]. rewrite E1; simpl.
  apply commit_total.
  destruct (commit_frame _ _ _ E1) as (Hs & _ & _ & Hrefs & _).
  by eapply ready_frame.
Qed.

Lemma settle_frame c w w' :
  settle c w = Some w' →
  step w' = step w ∧ showDetails w' = showDetails w
  ∧ areDetailsEntered w' = areDetailsEntered w
  ∧ tutorialRefs w' = tutorialRefs w
  ∧ show w' = show w || (ch_isNewUser c && isNewUser w)
  ∧ isNewUser w' = isNewUser w && negb (ch_isNewUser c).
Proof.
  unfold settle. intros H.
  destruct (commit c w) as [w1|] eqn:E1; simplify_eq/=.
  destruct (commit_frame _ _ _ E1) as (Hs1 & Hd1 & Ha1 & Hr1 & Hsh1 & Hn1).
  destruct (commit_frame _ _ _ H) as (Hs2 & Hd2 & Ha2 & Hr2 & Hsh2 & Hn2).
  rewrite Hs2, Hd2, Ha2, Hr2, Hsh2, Hn2. repeat split; try done.
  - simpl. rewrite Hsh1, Hn1.
    destruct (show w), (ch_isNewUser c), (isNewUser w); done.
  - simpl. rewrite Hn1.
    destruct (ch_isNewUser c), (isNewUser w); done.
Qed.

Lemma settle_zIndex c w w' :
  settle c w = Some w' →
  ∀ e, zIndexOf w' e =
       if decide ((layoutChanged c = true ∨ show w' ≠ show w)
                  ∧ tutorialRefs w !! step w = Some (Some e))
       then (if show w' then elevated_priority else baseline_priority)
       else zIndexOf w e.
Proof.
  intros H e. destruct (settle_frame _ _ _ H) as (_ & _ & _ & _ & Hsh & _).
  unfold settle in H.
  destruct (commit c w) as [w1|] eqn:E1; simplify_eq/=.
  destruct (commit_frame _ _ _ E1) as (Hs1 & _ & _ & Hr1 & Hsh1 & Hn1).
  destruct (commit_frame _ _ _ H) as (_ & _ & _ & _ & Hsh2 & _).
  rewrite (commit_zIndex _ _ _ H e), (commit_zIndex _ _ _ E1 e).
  rewrite (layoutChanged_changed _ _ Hs1), Hs1, Hr1.
  assert (show w' = show w1) as Hw'.
  { rewrite Hsh2. simpl. rewrite Hn1.
    destruct (show w1), (isNewUser w), (ch_isNewUser c); done. }
  rewrite Hw'.
  destruct (layoutChanged c), (show w) eqn:Esh, (show w1) eqn:Esh1;
    simpl; repeat case_decide; naive_solver.
Qed.

(** *** Events *)

Lemma handle_storage ev w w1 :
  handle ev w = Some w1 → storage w1 = storage w.
Proof.
  destruct ev; simpl; unfold onClose, onToggleDetails, onPrevious, onNext;
    intros H; simplify_eq/=; try done.
  - destruct (resetPrevDiv (step w) w) as [w0|] eqn:E; simplify_eq/=.
    apply resetPrevDiv_frame in E as (_&_&_&_&?&_). by case_decide.
  - destruct (resetPrevDiv (step w) w) as [w0|] eqn:E; simplify_eq/=.
    apply resetPrevDiv_frame in E as (_&_&_&_&?&_). by case_decide.
Qed.

Lemma triggered_isNewUser ev w w1 :
  handle ev w = Some w1 → ch_isNewUser (triggered ev w w1) = false.
Proof.
  intros H. apply handle_storage in H.
  assert (isNewUser w = isNewUser w1) by (unfold isNewUser; by rewrite H).
  destruct ev; simpl; by rewrite bool_decide_eq_true_2.
Qed.

(** An event that succeeds is its state update followed by renders that
    leave the React state alone and write the priority of the node of the
    current step when a dependency of the layout effects changed. *)
Lemma dispatch_inv ev w w' :
  dispatch ev w = Some w' →
  ∃ w1, handle ev w = Some w1
    ∧ step w' = step w1 ∧ show w' = show w1
    ∧ showDetails w' = showDetails w1
    ∧ areDetailsEntered w' = areDetailsEntered w1
    ∧ tutorialRefs w' = tutorialRefs w1
    ∧ isNewUser w' = isNewUser w1
    ∧ ∀ e, zIndexOf w' e =
           if decide (layoutChanged (triggered ev w w1) = true
                      ∧ tutorialRefs w1 !! step w1 = Some (Some e))
           then (if show w1 then elevated_priority else baseline_priority)
           else zIndexOf w1 e.
Proof.
  unfold dispatch. intros H.
  destruct (handle ev w) as [w1|] eqn:E; simplify_eq/=.
  exists w1. split; [done|].
  pose proof (triggered_isNewUser _ _ _ E) as Hn.
  destruct (settle_frame _ _ _ H) as (Hs & Hd & Ha & Hr & Hsh & Hnu).
  rewrite Hn in Hsh, Hnu. simpl in Hsh, Hnu.
  rewrite orb_false_r in Hsh. rewrite andb_true_r in Hnu.
  repeat split; try done.
  intros e. rewrite (settle_zIndex _ _ _ H e), Hsh.
  repeat case_decide; naive_solver.
Qed.

(** No event writes the persistent flag. *)
Lemma dispatch_isNewUser ev w w' :
  dispatch ev w = Some w' → isNewUser w' = isNewUser w.
Proof.
  intros E.
  destruct (dispatch_inv _ _ _ E) as (w1 & E1 & _ & _ & _ & _ & _ & Hn & _).
  rewrite Hn. unfold isNewUser. by rewrite (handle_storage _ _ _ E1).
Qed.

Lemma dispatch_total ev w w1 :
  handle ev w = Some w1 → ready w1 → is_Some (dispatch ev w).
Proof.
  intros H Hr. unfold dispatch. rewrite H; simpl. by apply settle_total.
Qed.

Lemma onPrevious_total w :
  ready w →
  ∃ w0, resetPrevDiv (step w) w = Some w0
    ∧ onPrevious w = Some (if decide (step w ≠ 0)
                           then setStep (step w - 1) w0 else w0).
Proof.
  intros [Hs Hr]. destruct (resetPrevDiv_total (step w) w) as [w0 E]; [lia|].
  exists w0. split; [done|]. unfold onPrevious. by rewrite E.
Qed.

Lemma onNext_total w :
  ready w →
  ∃ w0, resetPrevDiv (step w) w = Some w0
    ∧ onNext w = Some (if decide (step w + 1 = length tutorialSteps)
                       then setShow false w0 else setStep (step w + 1) w0).
Proof.
  intros [Hs Hr]. destruct (resetPrevDiv_total (step w) w) as [w0 E]; [lia|].
  exists w0. split; [done|]. unfold onNext. by rewrite E.
Qed.

(** *** Navigation *)

Lemma commit_idle w : commit (mkChanged false false false false) w = Some w.
Proof. done. Qed.

Lemma changed_same w w1 :
  step w1 = step w → show w1 = show w → storage w1 = storage w →
  changed w w1 = mkChanged false false false false.
Proof.
  intros Hs Hsh Hst. unfold changed, isNewUser. rewrite Hs, Hsh, Hst.
  by rewrite !bool_decide_eq_true_2.
Qed.

(** When the persistent flag did not change, the renders of an event are
    one run of the two layout effects, or nothing. *)
Lemma settle_layout c w :
  ch_isNewUser c = false →
  settle c w =
    if layoutChanged c then positionEffect w ≫= hiddenEffect else Some w.
Proof.
  intros Hn. unfold settle, commit. rewrite Hn.
  destruct (layoutChanged c); simpl.
  - destruct (positionEffect w) as [w1|] eqn:E1; simpl; [|done].
    destruct (hiddenEffect w1) as [w2|] eqn:E2; simpl; [|done].
    apply positionEffect_frame in E1 as (Hs1 & Hsh1 & _ & _ & Hst1 & _).
    apply hiddenEffect_frame in E2 as (Hs2 & Hsh2 & _ & _ & Hst2 & _).
    rewrite changed_same by congruence.
    rewrite bool_decide_eq_true_2; [done|].
    unfold isNewUser. congruence.
  - rewrite changed_same by done. by rewrite bool_decide_eq_true_2.
Qed.

Lemma positionEffect_eq w s d :
  tutorialSteps !! step w = Some s → tutorialRefs w !! step w = Some d →
  positionEffect w =
    Some (placeTooltip s d
            (match d with
             | Some e => assignZIndex e elevated_priority w
             | None => w
             end)).
Proof.
  intros Es Ed. unfold positionEffect, emphasize. rewrite Es, Ed.
  by destruct d.
Qed.

(** On the last step of a visible tour, Next does what the Close button
    does: the two end in the same state. *)
Lemma next_last_is_close w :
  ready w → step w + 1 = length tutorialSteps → show w = true →
  next w = close w.
Proof.
  intros [Hs Hr] Hlast Hshow.
  destruct (lookup_lt_is_Some_2 tutorialSteps (step w) Hs) as [s Es].
  destruct (lookup_lt_is_Some_2 (tutorialRefs w) (step w)) as [d Ed]; [lia|].
  unfold next, close, dispatch, handle, onNext, onClose, resetPrevDiv.
  rewrite Ed.
  destruct d as [e|]; simpl; rewrite (decide_True _ _ Hlast); [|done].
  rewrite !settle_layout by (simpl; unfold isNewUser; simpl;
                             by rewrite bool_decide_eq_true_2).
  unfold layoutChanged; simpl. rewrite Hshow; simpl.
  rewrite !bool_decide_eq_true_2 by done. simpl.
  erewrite !positionEffect_eq by (simpl; eassumption). simpl.
  unfold hiddenEffect, resetPrevDiv, placeTooltip; simpl.
  case_decide; simpl; rewrite Ed; simpl; f_equal;
    unfold scrollIntoView, setScrolled, setTooltipStyle, assignZIndex,
      setZIndexes, setShow; simpl; by rewrite !insert_insert_eq.
Qed.

(** C2: for every step index i of the catalog, Next on step i with
    i + 1 = N hides the tour and keeps the step index, ending in the very
    state the Close button ends in when the tour was visible; with
    i + 1 < N it adds one to the step index and keeps the visibility; the
    resulting step index is below N, so the state is never Visible(N). *)
Theorem next_advances_or_finishes w :
  ready w →
  ∃ w', next w = Some w'
    ∧ (step w + 1 = length tutorialSteps →
       show w' = false ∧ step w' = step w
       ∧ (show w = true → close w = Some w'))
    ∧ (step w + 1 < length tutorialSteps →
       step w' = step w + 1 ∧ show w' = show w)
    ∧ step w' < length tutorialSteps
    ∧ ¬ (show w' = true ∧ step w' = length tutorialSteps).
Proof.
  intros Hr. destruct (onNext_total w Hr) as (w0 & E0 & E1).
  destruct (resetPrevDiv_frame _ _ _ E0) as (Hs0 & Hsh0 & _ & _ & _ & Hr0 & _).
  assert (ready (if decide (step w + 1 = length tutorialSteps)
                 then setShow false w0 else setStep (step w + 1) w0)) as Hr1.
  { destruct Hr as [Hs Hl]. unfold ready. case_decide; simpl; rewrite ?Hs0, Hr0; lia. }
  destruct (dispatch_total ClickNext w _ E1 Hr1) as [w' E].
  exists w'. split; [done|].
  destruct (dispatch_inv _ _ _ E) as (w1 & E1' & Hs & Hsh & _).
  simpl in E1'. rewrite E1 in E1'. simplify_eq.
  pose proof Hr as [Hlt Hl].
  case_decide as Hlast; simpl in *.
  - split.
    { intros _. split; [done|]. split; [congruence|].
      intros Hshow. rewrite <- E. symmetry. by apply next_last_is_close. }
    split; [intros ?; exfalso; lia|].
    split; [lia|]. intros [? _]. congruence.
  - split; [intros ?; exfalso; lia|].
    split; [intros ?; split; [lia | congruence]|].
    split; [lia|]. intros [_ ?]. lia.
Qed.

(** C4: Previous on step 0 leaves step index and visibility as they are;
    on a step i > 0 it takes exactly one from the step index and leaves the
    visibility as it is. *)
Theorem previous_moves_back w :
  ready w →
  ∃ w', previous w = Some w'
    ∧ show w' = show w
    ∧ (step w = 0 → step w' = step w)
    ∧ (0 < step w → step w' + 1 = step w).
Proof.
  intros Hr. destruct (onPrevious_total w Hr) as (w0 & E0 & E1).
  destruct (resetPrevDiv_frame _ _ _ E0) as (Hs0 & Hsh0 & _ & _ & _ & Hr0 & _).
  assert (ready (if decide (step w ≠ 0)
                 then setStep (step w - 1) w0 else w0)) as Hr1.
  { destruct Hr as [Hs Hl]. unfold ready. case_decide; simpl; rewrite ?Hs0, Hr0; lia. }
  destruct (dispatch_total ClickPrevious w _ E1 Hr1) as [w' E].
  exists w'. split; [done|].
  destruct (dispatch_inv _ _ _ E) as (w1 & E1' & Hs & Hsh & _).
  simpl in E1'. rewrite E1 in E1'. simplify_eq.
  case_decide; simpl in *.
  - split; [congruence|]. split; intros ?; lia.
  - split; [congruence|]. split; intros ?; lia.
Qed.

(** C7, as amended: Next below the last step and Previous above step 0
    change the step index and leave the details toggle as it was. *)
Theorem navigation_keeps_details w :
  ready w →
  (step w + 1 < length tutorialSteps →
   ∃ w', next w = Some w' ∧ step w' = step w + 1
         ∧ showDetails w' = showDetails w)
  ∧ (0 < step w →
     ∃ w', previous w = Some w' ∧ step w' + 1 = step w
           ∧ showDetails w' = showDetails w).
Proof.
  intros Hr. split; intros Hi.
  - destruct (onNext_total w Hr) as (w0 & E0 & E1).
    rewrite decide_False in E1 by lia.
    destruct (resetPrevDiv_frame _ _ _ E0) as (Hs0 & _ & Hd0 & _ & _ & Hr0 & _).
    destruct (dispatch_total ClickNext w _ E1) as [w' E].
    { destruct Hr. unfold ready; simpl. rewrite Hr0. lia. }
    exists w'. split; [done|].
    destruct (dispatch_inv _ _ _ E) as (w1 & E1' & Hs & _ & Hd & _).
    simpl in E1'. rewrite E1 in E1'. simplify_eq. simpl in *.
    split; congruence.
  - destruct (onPrevious_total w Hr) as (w0 & E0 & E1).
    rewrite decide_True in E1 by lia.
    destruct (resetPrevDiv_frame _ _ _ E0) as (Hs0 & _ & Hd0 & _ & _ & Hr0 & _).
    destruct (dispatch_total ClickPrevious w _ E1) as [w' E].
    { destruct Hr. unfold ready; simpl. rewrite Hr0. lia. }
    exists w'. split; [done|].
    destruct (dispatch_inv _ _ _ E) as (w1 & E1' & Hs & _ & Hd & _).
    simpl in E1'. rewrite E1 in E1'. simplify_eq. simpl in *.
    split; [lia | congruence].
Qed.

(** C9: when the registry entry of an index is null, clearing the
    emphasis of that index returns normally and leaves the whole state as
    it was, and so does applying the emphasis to the current step. *)
Theorem emphasis_skips_null i w :
  tutorialRefs w !! i = Some None →
  resetPrevDiv i w = Some w
  ∧ (step w = i → emphasize w = Some (None, w))
  ∧ (step w = i → hiddenEffect w = Some w).
Proof.
  intros H. unfold hiddenEffect, emphasize, resetPrevDiv.
  split; [by rewrite H|]. split; intros ->; rewrite H; [done|].
  by destruct (show w).
Qed.

(** C10: Previous on step 0 restores the baseline priority on the node
    registered for step 0, and does nothing else: step index and
    visibility stay, and no effect raises the node again. *)
Theorem previous_on_first_step_clears w e :
  ready w → step w = 0 → tutorialRefs w !! 0 = Some (Some e) →
  previous w = Some (assignZIndex e baseline_priority w)
  ∧ ∃ w', previous w = Some w'
      ∧ zIndexOf w' e = baseline_priority
      ∧ step w' = 0 ∧ show w' = show w.
Proof.
  intros Hr Hs He.
  assert (previous w = Some (assignZIndex e baseline_priority w)) as E.
  { unfold previous, dispatch, handle, onPrevious, resetPrevDiv.
    rewrite Hs, He; simpl.
    rewrite settle_layout by (simpl; unfold isNewUser; simpl;
                               by rewrite bool_decide_eq_true_2).
    unfold layoutChanged; simpl. by rewrite !bool_decide_eq_true_2. }
  split; [done|]. eexists. split; [done|].
  rewrite zIndexOf_assign, decide_True by done. done.
Qed.

(** *** The validation gate *)

Lemma isStepComplete_eq w s :
  tutorialSteps !! step w = Some s →
  isStepComplete w =
    Some (if decide (title s = "Meal Plan Info")
          then areDetailsEntered w else true).
Proof.
  intros Es. unfold isStepComplete, validations. rewrite Es; simpl.
  case_bool_decide as Hv; case_decide as Ht; simpl; try done;
    exfalso; auto.
Qed.

Lemma render_total w :
  step w < length tutorialSteps → is_Some (render w).
Proof.
  intros Hs. destruct (lookup_lt_is_Some_2 _ _ Hs) as [s Es].
  unfold render, moreDetails. rewrite (isStepComplete_eq _ _ Es), Es.
  simpl. eauto.
Qed.

Lemma render_nextDisabled w v :
  render w = Some v →
  ∃ complete, isStepComplete w = Some complete
              ∧ view_nextDisabled v = negb complete.
Proof.
  unfold render. intros H.
  destruct (tutorialSteps !! step w) as [s|]; simplify_eq/=.
  destruct (moreDetails w) as [details|]; simplify_eq/=.
  destruct (isStepComplete w) as [complete|]; simplify_eq/=.
  by exists complete.
Qed.

(** C3: a step whose title has no validation rule is valid; the step
    titled 'Meal Plan Info' is valid exactly when the supplied boolean is
    true; and the Next / Finish control is rendered disabled exactly when
    the step is invalid, in which case it cannot be used. *)
Theorem validation_gate_fail_open w s :
  tutorialSteps !! step w = Some s →
  (title s ≠ "Meal Plan Info" → isStepComplete w = Some true)
  ∧ (title s = "Meal Plan Info" →
     isStepComplete w = Some (areDetailsEntered w))
  ∧ ∃ v complete,
      render w = Some v ∧ isStepComplete w = Some complete
      ∧ (view_nextDisabled v = true ↔ complete = false)
      ∧ (complete = false → offered w ClickNext = false).
Proof.
  intros Es. rewrite (isStepComplete_eq _ _ Es).
  split; [intros ?; by rewrite decide_False|].
  split; [intros ?; by rewrite decide_True|].
  destruct (render_total w) as [v Ev]; [by eapply lookup_lt_Some|].
  destruct (render_nextDisabled _ _ Ev) as (complete & Ec & Hd).
  rewrite (isStepComplete_eq _ _ Es) in Ec.
  exists v, complete. repeat split; try done.
  - rewrite Hd. by destruct complete.
  - intros ->. by rewrite Hd.
  - intros ->. unfold offered. rewrite Ev, Hd. simpl. apply andb_false_r.
Qed.

(** *** Placing the tooltip *)

Lemma fold_centers (l : list Step) (acc : Z) :
  fold_left (λ p c, (p + (if decide (position c = pos_center) then 1 else 0))%Z)
            l acc
  = (acc + Z.of_nat (length (filter (λ s, position s = pos_center) l)))%Z.
Proof.
  revert acc. induction l as [|c l IH]; intros acc; simpl; [lia|].
  rewrite IH, filter_cons. case_decide; simpl; lia.
Qed.

(** The reduction of the source counts the center steps before [i]. *)
Lemma centersBefore_count i : centersBefore i = Z.of_nat (centerCount i).
Proof. unfold centersBefore, centerCount. rewrite fold_centers. lia. Qed.

Lemma positionEffect_inline w s d :
  tutorialSteps !! step w = Some s → position s ≠ pos_center →
  tutorialRefs w !! step w = Some d →
  ∃ w1, positionEffect w = Some w1
    ∧ tooltipStyle w1 = mkStyle "static" "" (pretty (orderOf (step w)))
    ∧ scrolled w1 = scrolled w ++ [mkScroll (scrollTarget d (position s))
                                     "smooth" (block_name (position s))].
Proof.
  intros Es Hp Ed. rewrite (positionEffect_eq _ _ _ Es Ed).
  eexists. split; [done|]. unfold placeTooltip.
  rewrite decide_True by done. by destruct d.
Qed.

(** C5: for a step i that is not centered, the order assigned to the
    tooltip is the decimal of 1 + i minus the number of centered steps
    before i; with the positions center, start, end, start the steps 1, 2
    and 3 get the orders 1, 2 and 3. *)
Theorem inline_order_skips_centers :
  (∀ w s,
     tutorialSteps !! step w = Some s → position s ≠ pos_center →
     step w < length (tutorialRefs w) →
     ∃ w', positionEffect w = Some w'
       ∧ css_order (tooltipStyle w')
         = pretty (1 + Z.of_nat (step w) - Z.of_nat (centerCount (step w)))%Z)
  ∧ (position <$> tutorialSteps = [pos_center; pos_start; pos_end; pos_start] →
     ∀ w, step w < length (tutorialRefs w) →
       ∀ i, step w = i → i = 1 ∨ i = 2 ∨ i = 3 →
       ∃ w', positionEffect w = Some w'
         ∧ css_order (tooltipStyle w') = pretty i).
Proof.
  split.
  - intros w s Es Hp Hlt.
    destruct (lookup_lt_is_Some_2 _ _ Hlt) as [d Ed].
    destruct (positionEffect_inline _ _ _ Es Hp Ed) as (w1 & E & Hst & _).
    exists w1. split; [done|]. rewrite Hst; simpl.
    unfold orderOf. by rewrite centersBefore_count.
  - intros Hpos w Hlt i Hi Hrange.
    destruct (lookup_lt_is_Some_2 _ _ Hlt) as [d Ed].
    assert (∃ s, tutorialSteps !! step w = Some s
                 ∧ position s ≠ pos_center
                 ∧ pretty (orderOf (step w)) = pretty (step w)) as (s & Es & Hp & Ho).
    { unfold orderOf, centersBefore.
      destruct tutorialSteps
        as [|[t0 d0 p0] [|[t1 d1 p1] [|[t2 d2 p2] [|[t3 d3 p3] [|]]]]];
        simplify_eq/=.
      destruct Hrange as [Hk|[Hk|Hk]]; rewrite Hk; simpl;
        eexists; (split; [done|]); simpl; (split; [done|]);
        vm_compute; reflexivity. }
    destruct (positionEffect_inline _ _ _ Es Hp Ed) as (w1 & E & Hst & _).
    exists w1. split; [done|]. rewrite Hst; simpl. by rewrite Ho, Hi.
Qed.

(** C6, as amended: for an active step placed at start or end, the
    tooltip is the node scrolled into view unless the position is end and
    the registry entry of the step is present, in which case that node is;
    the call is aligned to the position of the step either way. *)
Theorem scroll_target_choice w s d :
  tutorialSteps !! step w = Some s →
  position s = pos_start ∨ position s = pos_end →
  tutorialRefs w !! step w = Some d →
  ∃ w' target,
    positionEffect w = Some w'
    ∧ scrolled w' = scrolled w ++
        [mkScroll target "smooth" (block_name (position s))]
    ∧ (∀ e, d = Some e → position s = pos_end → target = HostNode e)
    ∧ (position s = pos_start → target = TooltipNode)
    ∧ (d = None → target = TooltipNode).
Proof.
  intros Es Hp Ed.
  destruct (positionEffect_inline w s d)
    as (w1 & E & _ & Hsc); [done | destruct Hp; congruence | done |].
  exists w1, (scrollTarget d (position s)).
  repeat split; try done.
  - by intros e -> ->.
  - intros ->. by destruct d.
  - by intros ->.
Qed.

(** *** Mounting *)

(** C1: a store in which the key was never written reads true; mounting
    with the flag reading true shows the tour and writes the flag false;
    mounting with the flag reading false leaves the visibility as it is;
    the flag reads false after every mount and no event writes it, so that
    no later mount on that store shows the tour by itself. *)
Theorem auto_activation_once w :
  ready w →
  (storage w !! "isNewUser" = None → isNewUser w = true)
  ∧ ∃ w', mount w = Some w'
      ∧ (isNewUser w = true → show w' = true)
      ∧ (isNewUser w = false → show w' = show w)
      ∧ isNewUser w' = false
      ∧ (∀ ev w'', dispatch ev w' = Some w'' → isNewUser w'' = false)
      ∧ ∀ w2, ready w2 → storage w2 = storage w' →
          ∃ w3, mount w2 = Some w3 ∧ show w3 = show w2.
Proof.
  intros Hr. split.
  { intros H. unfold isNewUser. by rewrite H. }
  destruct (settle_total allChanged w Hr) as [w' E].
  destruct (settle_frame _ _ _ E) as (_ & _ & _ & _ & Hsh & Hn).
  simpl in Hsh, Hn. rewrite andb_false_r in Hn.
  exists w'. split; [done|].
  split; [intros Ht; rewrite Hsh, Ht; apply orb_true_r|].
  split; [intros Hf; rewrite Hsh, Hf; apply orb_false_r|].
  split; [done|].
  split; [intros ev w'' Hev; by rewrite (dispatch_isNewUser _ _ _ Hev)|].
  intros w2 Hr2 Hst.
  destruct (settle_total allChanged w2 Hr2) as [w3 E3].
  destruct (settle_frame _ _ _ E3) as (_ & _ & _ & _ & Hsh3 & _).
  exists w3. split; [done|].
  assert (isNewUser w2 = false) as Hn2 by (unfold isNewUser in *; by rewrite Hst).
  rewrite Hsh3, Hn2. apply orb_false_r.
Qed.

(** *** The invariant *)

Lemma render_inv w v :
  render w = Some v →
  view_hidden v = negb (show w)
  ∧ view_prevHidden v = bool_decide (step w = 0).
Proof.
  unfold render. intros H.
  destruct (tutorialSteps !! step w) as [s|]; simplify_eq/=.
  destruct (moreDetails w) as [details|]; simplify_eq/=.
  destruct (isStepComplete w) as [complete|]; simplify_eq/=.
  done.
Qed.

(** A control can only be used while the tour is visible, and Previous
    only after the first step. *)
Lemma offered_click w ev :
  offered w ev = true →
  match ev with
  | ClickClose | ClickDetails | ClickNext => show w = true
  | ClickPrevious => show w = true ∧ step w ≠ 0
  | _ => True
  end.
Proof.
  unfold offered. destruct ev; try done;
    (destruct (render w) as [v|] eqn:E; [|done]);
    destruct (render_inv _ _ E) as [Hh Hp]; rewrite Hh, ?Hp;
    destruct (show w); simpl; try done.
  intros H. split; [done|]. by case_bool_decide.
Qed.

(** How one event carries the invariant over: [layout] tells whether the
    layout effects ran, [reset] whether the handler cleared the node of
    the step it left. *)
Lemma consistent_step w w' (reset layout : bool) :
  consistent w →
  ready w' →
  (∀ i j e, tutorialRefs w' !! i = Some (Some e) →
            tutorialRefs w' !! j = Some (Some e) → i = j) →
  (∀ e, zIndexOf w' e =
        if decide (layout = true
                   ∧ tutorialRefs w' !! step w' = Some (Some e))
        then (if show w' then elevated_priority else baseline_priority)
        else if decide (reset = true
                        ∧ tutorialRefs w !! step w = Some (Some e))
             then baseline_priority else zIndexOf w e) →
  (∀ e, registered w' e → elevated w e →
        (reset = true ∧ tutorialRefs w !! step w = Some (Some e))
        ∨ tutorialRefs w' !! step w' = Some (Some e)) →
  (show w' = true →
   layout = true
   ∨ (reset = false ∧ show w = true
      ∧ tutorialRefs w' !! step w' = tutorialRefs w !! step w)) →
  consistent w'.
Proof.
  intros Hc Hr Hd Hz Hreg Hvis. split; [done|done|..].
  - intros e He Hel. unfold elevated in Hel. rewrite Hz in Hel.
    destruct (decide (layout = true ∧ _)) as [H1|H1]; [naive_solver|].
    destruct (decide (reset = true ∧ _)) as [H2|H2]; [done|].
    destruct (Hreg e He Hel) as [?|?]; naive_solver.
  - intros Hsh e He. unfold elevated. rewrite Hz, Hsh.
    destruct (Hvis Hsh) as [->|(-> & Hshw & Hsame)].
    + by rewrite decide_True.
    + destruct (decide (layout = true ∧ _)); [done|].
      rewrite decide_False by naive_solver.
      apply (cons_current _ Hc Hshw). by rewrite <- Hsame.
Qed.

Lemma registered_same w w' e :
  tutorialRefs w' = tutorialRefs w → registered w' e → registered w e.
Proof. unfold registered. by intros ->. Qed.

(** The form of [dispatch_inv] that [consistent_step] takes. *)
Lemma dispatch_priorities ev w w' :
  dispatch ev w = Some w' →
  ∃ w1, handle ev w = Some w1
    ∧ step w' = step w1 ∧ show w' = show w1
    ∧ tutorialRefs w' = tutorialRefs w1
    ∧ ∀ e, zIndexOf w' e =
           if decide (layoutChanged (triggered ev w w1) = true
                      ∧ tutorialRefs w' !! step w' = Some (Some e))
           then (if show w' then elevated_priority else baseline_priority)
           else zIndexOf w1 e.
Proof.
  intros E.
  destruct (dispatch_inv _ _ _ E) as (w1 & E1 & Hs & Hsh & _ & _ & Hr & _ & Hz).
  exists w1. repeat split; try done.
  intros e. rewrite Hz, Hs, Hsh, Hr. done.
Qed.

(** The state update of Previous and Next, as far as the invariant sees
    it: the node of the step left is cleared. *)
Lemma handle_navigation ev w w1 :
  ev = ClickPrevious ∨ ev = ClickNext →
  handle ev w = Some w1 →
  show w = true → (ev = ClickPrevious → step w ≠ 0) →
  tutorialRefs w1 = tutorialRefs w
  ∧ layoutChanged (triggered ev w w1) = true
  ∧ (step w1 = step w ∨ step w1 + 1 = step w ∨ step w1 = step w + 1)
  ∧ (step w1 = step w + 1 → step w + 1 ≠ length tutorialSteps)
  ∧ ∀ e, zIndexOf w1 e =
         if decide (true = true ∧ tutorialRefs w !! step w = Some (Some e))
         then baseline_priority else zIndexOf w e.
Proof.
  intros Hev E Hshow Hfirst.
  assert (∃ w0, resetPrevDiv (step w) w = Some w0
            ∧ (w1 = setStep (step w - 1) w0 ∧ step w ≠ 0
               ∨ w1 = setShow false w0
               ∨ w1 = setStep (step w + 1) w0
                 ∧ step w + 1 ≠ length tutorialSteps))
    as (w0 & E0 & Hw1).
  { destruct Hev as [-> | ->]; simpl in E; unfold onPrevious, onNext in E;
      destruct (resetPrevDiv (step w) w) as [w0|]; simplify_eq/=;
      exists w0; (split; [done|]).
    - rewrite decide_True by auto. auto.
    - case_decide; auto. }
  destruct (resetPrevDiv_frame _ _ _ E0) as (Hs0 & Hsh0 & _ & _ & _ & Hr0 & _).
  pose proof (resetPrevDiv_zIndex _ _ _ E0) as Hz0.
  assert (∀ e, zIndexOf w1 e = zIndexOf w0 e) as Hsame
    by (intros e; destruct Hw1 as [[-> _]|[->| [-> _]]]; done).
  assert (triggered ev w w1 = changed w w1) as -> by (by destruct Hev as [-> | ->]).
  split; [destruct Hw1 as [[-> _]|[->| [-> _]]]; done|].
  split.
  { unfold layoutChanged, changed; simpl.
    destruct Hw1 as [[-> ?]|[->| [-> ?]]]; simpl.
    - rewrite (bool_decide_eq_false_2 (step w = step w - 1)) by lia. done.
    - rewrite Hshow. by destruct (bool_decide (step w = step w0)).
    - rewrite (bool_decide_eq_false_2 (step w = step w + 1)) by lia. done. }
  split; [destruct Hw1 as [[-> ?]|[->| [-> ?]]]; simpl; lia|].
  split; [destruct Hw1 as [[-> ?]|[->| [-> ?]]]; simpl; lia|].
  intros e. rewrite Hsame, Hz0. repeat case_decide; naive_solver.
Qed.

(** Every event that the host may send and the rendered controls let
    through keeps the invariant. *)
Lemma consistent_dispatch ev w w' :
  consistent w →
  hostAdmits w ev = true → offered w ev = true →
  dispatch ev w = Some w' →
  consistent w'.
Proof.
  intros Hc Hadm Hoff E.
  destruct (dispatch_priorities _ _ _ E) as (w1 & E1 & Hs & Hsh & Hr & Hz).
  pose proof (offered_click _ _ Hoff) as Hclick.
  pose proof (cons_ready _ Hc) as [Hlt Hlen].
  destruct ev; simpl in E1, Hclick.
  - (* Close *)
    unfold onClose in E1. simplify_eq. simpl in *.
    apply (consistent_step w w' false true); try done.
    + unfold ready. rewrite Hs, Hr. done.
    + rewrite Hr. apply (cons_distinct _ Hc).
    + intros e. rewrite Hz. unfold layoutChanged; simpl. rewrite Hclick.
      destruct (bool_decide (step w = step w)); simpl;
        repeat case_decide; naive_solver.
    + intros e Hreg Hel. right. rewrite Hs, Hr.
      apply (cons_only _ Hc); [|done]. by eapply registered_same.
    + by rewrite Hsh.
  - (* details link *)
    unfold onToggleDetails in E1. simplify_eq. simpl in *.
    apply (consistent_step w w' false false); try done.
    + unfold ready. rewrite Hs, Hr. done.
    + rewrite Hr. apply (cons_distinct _ Hc).
    + intros e. rewrite Hz. unfold layoutChanged; simpl.
      rewrite !bool_decide_eq_true_2 by done. simpl.
      repeat case_decide; naive_solver.
    + intros e Hreg Hel. right. rewrite Hs, Hr.
      apply (cons_only _ Hc); [|done]. by eapply registered_same.
    + intros _. right. by rewrite Hs, Hr.
  - (* Previous *)
    destruct Hclick as [Hshow Hfirst].
    destruct (handle_navigation ClickPrevious w w1)
      as (Hr1 & HL & Hstep & Hnolast & Hz1); [auto | done | done | done |].
    apply (consistent_step w w' true true); try done.
    + unfold ready. rewrite Hs, Hr, Hr1. split; lia.
    + rewrite Hr, Hr1. apply (cons_distinct _ Hc).
    + intros e. by rewrite Hz, HL, Hz1.
    + intros e Hreg Hel. left. split; [done|].
      apply (cons_only _ Hc); [|done]. eapply registered_same; [|done]. congruence.
    + auto.
  - (* Next *)
    destruct (handle_navigation ClickNext w w1)
      as (Hr1 & HL & Hstep & Hnolast & Hz1); [auto | done | done | done |].
    apply (consistent_step w w' true true); try done.
    + unfold ready. rewrite Hs, Hr, Hr1. split; lia.
    + rewrite Hr, Hr1. apply (cons_distinct _ Hc).
    + intros e. by rewrite Hz, HL, Hz1.
    + intros e Hreg Hel. left. split; [done|].
      apply (cons_only _ Hc); [|done]. eapply registered_same; [|done]. congruence.
    + auto.
  - (* the host shows the tour *)
    simplify_eq. simpl in *.
    apply (consistent_step w w' false (negb (show w))); try done.
    + unfold ready. rewrite Hs, Hr. done.
    + rewrite Hr. apply (cons_distinct _ Hc).
    + intros e. rewrite Hz. unfold layoutChanged; simpl.
      rewrite (bool_decide_eq_true_2 (step w = step w)) by done.
      destruct (show w); simpl; repeat case_decide; naive_solver.
    + intros e Hreg Hel. right. rewrite Hs, Hr.
      apply (cons_only _ Hc); [|done]. by eapply registered_same.
    + intros _. destruct (show w); [right|left]; try done. by rewrite Hs, Hr.
  - (* the host supplies the validation boolean *)
    simplify_eq. simpl in *.
    apply (consistent_step w w' false false); try done.
    + unfold ready. rewrite Hs, Hr. done.
    + rewrite Hr. apply (cons_distinct _ Hc).
    + intros e. rewrite Hz. unfold layoutChanged; simpl.
      rewrite !bool_decide_eq_true_2 by done. simpl.
      repeat case_decide; naive_solver.
    + intros e Hreg Hel. right. rewrite Hs, Hr.
      apply (cons_only _ Hc); [|done]. by eapply registered_same.
    + intros Hw'. right. rewrite Hs, Hr. by rewrite <- Hsh.
  - (* the host registers a node *)
    simplify_eq. simpl in *.
    apply andb_true_iff in Hadm as [Hadm Hbase].
    apply andb_true_iff in Hadm as [Hi Hfresh].
    apply bool_decide_eq_true_1 in Hi, Hfresh, Hbase.
    assert (∀ k e0, tutorialRefs w' !! k = Some (Some e0) →
                    (k = i ∧ e0 = e) ∨ (k ≠ i ∧ tutorialRefs w !! k = Some (Some e0)))
      as Hlook.
    { intros k e0. rewrite Hr. intros Hk.
      apply list_lookup_insert_Some in Hk. naive_solver. }
    assert (∀ k, tutorialRefs w !! k ≠ Some (Some e)) as Hnot.
    { intros k Hk. apply Hfresh. by eapply list_elem_of_lookup_2. }
    apply (consistent_step w w' false true); try done.
    + unfold ready. rewrite Hs, Hr, length_insert. done.
    + intros j k e0 Hj Hk.
      destruct (Hlook _ _ Hj) as [[-> ->]|[? Hj']],
               (Hlook _ _ Hk) as [[-> ?]|[? Hk']]; try done.
      * subst. by destruct (Hnot k).
      * subst. by destruct (Hnot j).
      * by apply (cons_distinct _ Hc j k e0).
    + intros e0. rewrite Hz. unfold layoutChanged; simpl.
      rewrite orb_true_r. repeat case_decide; naive_solver.
    + intros e0 [k Hk] Hel. right.
      destruct (Hlook _ _ Hk) as [[-> ->]|[Hne Hk']]; [done|].
      assert (tutorialRefs w !! step w = Some (Some e0)) as Hcur
        by (apply (cons_only _ Hc); [by exists k|done]).
      assert (k = step w) as -> by (by apply (cons_distinct _ Hc k (step w) e0)).
      rewrite Hs, Hr. by rewrite list_lookup_insert_ne.
    + auto.
  - (* the host unregisters a node *)
    simplify_eq. simpl in *.
    assert (∀ k e0, tutorialRefs w' !! k = Some (Some e0) →
                    k ≠ i ∧ tutorialRefs w !! k = Some (Some e0))
      as Hlook.
    { intros k e0. rewrite Hr. intros Hk.
      apply list_lookup_insert_Some in Hk. naive_solver. }
    apply (consistent_step w w' false true); try done.
    + unfold ready. rewrite Hs, Hr, length_insert. done.
    + intros j k e0 Hj Hk.
      destruct (Hlook _ _ Hj) as [? Hj'], (Hlook _ _ Hk) as [? Hk'].
      by apply (cons_distinct _ Hc j k e0).
    + intros e0. rewrite Hz. unfold layoutChanged; simpl.
      rewrite orb_true_r. repeat case_decide; naive_solver.
    + intros e0 [k Hk] Hel. right.
      destruct (Hlook _ _ Hk) as [Hne Hk'].
      assert (tutorialRefs w !! step w = Some (Some e0)) as Hcur
        by (apply (cons_only _ Hc); [by exists k|done]).
      assert (k = step w) as -> by (by apply (cons_distinct _ Hc k (step w) e0)).
      rewrite Hs, Hr. by rewrite list_lookup_insert_ne.
    + auto.
Qed.

(** From a well-formed state no event throws. *)
Lemma dispatch_succeeds ev w : ready w → is_Some (dispatch ev w).
Proof.
  intros Hr. pose proof Hr as [Hlt Hlen]. destruct ev.
  - by apply (dispatch_total ClickClose w (setShow false w)).
  - by apply (dispatch_total ClickDetails w
                (setShowDetails (negb (showDetails w)) w)).
  - destruct (onPrevious_total w Hr) as (w0 & E0 & E).
    apply (dispatch_total ClickPrevious w _ E).
    destruct (resetPrevDiv_frame _ _ _ E0) as (Hs0 & _ & _ & _ & _ & Hr0 & _).
    unfold ready. case_decide; simpl; rewrite ?Hs0, Hr0; lia.
  - destruct (onNext_total w Hr) as (w0 & E0 & E).
    apply (dispatch_total ClickNext w _ E).
    destruct (resetPrevDiv_frame _ _ _ E0) as (Hs0 & _ & _ & _ & _ & Hr0 & _).
    unfold ready. case_decide; simpl; rewrite ?Hs0, Hr0; lia.
  - by apply (dispatch_total HostShow w (setShow true w)).
  - by apply (dispatch_total (HostDetailsEntered b) w
                (setAreDetailsEntered b w)).
  - apply (dispatch_total (HostRegister i e) w _ eq_refl).
    unfold ready; simpl. by rewrite length_insert.
  - apply (dispatch_total (HostUnregister i) w _ eq_refl).
    unfold ready; simpl. by rewrite length_insert.
Qed.

(** Mounting establishes the invariant. *)
Lemma consistent_mount w0 w :
  initial w0 → mount w0 = Some w → consistent w.
Proof.
  intros [Hstep Hslots _ Hdist Hbase] E. unfold mount in E.
  destruct (settle_frame _ _ _ E) as (Hs & _ & _ & Hr & Hsh & _).
  pose proof (settle_zIndex _ _ _ E) as Hz. simpl in Hz.
  split.
  - unfold ready. rewrite Hs, Hr. lia.
  - rewrite Hr. apply Hdist.
  - intros e [k Hk] Hel. unfold elevated in Hel. rewrite Hz in Hel.
    rewrite Hs, Hr. rewrite Hr in Hk.
    case_decide as Hcur; [naive_solver|]. by destruct (Hbase k e).
  - intros Hshow e He. unfold elevated. rewrite Hz, Hshow.
    rewrite Hs, Hr in He. rewrite decide_True; [done|]. auto.
Qed.

(** The invariant holds in every state that the rendered controls and the
    host can bring about. *)
Lemma uiReachable_consistent w : uiReachable w → consistent w.
Proof.
  induction 1 as [w0 w Hinit Hmount | w ev w' _ IH Hallowed Hstep].
  - by eapply consistent_mount.
  - apply andb_true_iff in Hallowed as [Hadm Hoff].
    by eapply consistent_dispatch.
Qed.

(** What the invariant says about a visible state. *)
Lemma consistent_emphasisOk w :
  consistent w → show w = true → emphasisOk w.
Proof.
  intros Hc Hshow. repeat split.
  - intros e1 e2 Hr1 He1 Hr2 He2.
    pose proof (cons_only _ Hc e1 Hr1 He1) as H1.
    pose proof (cons_only _ Hc e2 Hr2 He2) as H2. congruence.
  - by apply (cons_current _ Hc).
  - intros Hnull e Hr He.
    pose proof (cons_only _ Hc e Hr He). congruence.
Qed.

(** What the rendered controls let through is never Previous on the first
    step of a visible tour. *)
Lemma offered_not_excluded w ev :
  offered w ev = true → previousOnVisibleFirstStep w ev = false.
Proof.
  intros Hoff. pose proof (offered_click _ _ Hoff) as Hclick.
  destruct ev; try done. simpl in *. destruct Hclick as [-> Hne].
  by rewrite bool_decide_eq_false_2.
Qed.

Lemma uiReachable_tourReachable w : uiReachable w → tourReachable w.
Proof.
  induction 1 as [w0 w Hinit Hmount | w ev w' _ IH Hallowed Hstep].
  - by eapply reach_mount.
  - apply andb_true_iff in Hallowed as [Hadm Hoff].
    eapply reach_event; [exact IH | | exact Hstep]. simpl.
    by rewrite Hadm, (offered_not_excluded _ _ Hoff).
Qed.

(** The state update of Previous and Next in any state: the node of the
    step left is cleared, and a layout effect follows unless neither the
    step nor the visibility changed, which happens on a hidden tour or
    for Previous on step 0. *)
Lemma handle_navigation_any ev w w1 :
  ev = ClickPrevious ∨ ev = ClickNext →
  handle ev w = Some w1 →
  tutorialRefs w1 = tutorialRefs w
  ∧ (step w1 = step w ∨ step w1 + 1 = step w ∨ step w1 = step w + 1)
  ∧ (step w1 = step w + 1 → step w + 1 ≠ length tutorialSteps)
  ∧ (∀ e, zIndexOf w1 e =
          if decide (true = true ∧ tutorialRefs w !! step w = Some (Some e))
          then baseline_priority else zIndexOf w e)
  ∧ (layoutChanged (triggered ev w w1) = true
     ∨ (layoutChanged (triggered ev w w1) = false
        ∧ step w1 = step w ∧ show w1 = show w
        ∧ (show w = false ∨ (ev = ClickPrevious ∧ step w = 0)))).
Proof.
  intros Hev E.
  assert (∃ w0, resetPrevDiv (step w) w = Some w0
            ∧ (w1 = setStep (step w - 1) w0 ∧ step w ≠ 0
               ∨ w1 = w0 ∧ ev = ClickPrevious ∧ step w = 0
               ∨ w1 = setShow false w0
               ∨ w1 = setStep (step w + 1) w0
                 ∧ step w + 1 ≠ length tutorialSteps))
    as (w0 & E0 & Hw1).
  { destruct Hev as [-> | ->]; simpl in E; unfold onPrevious, onNext in E;
      destruct (resetPrevDiv (step w) w) as [w0|]; simplify_eq/=;
      exists w0; (split; [done|]).
    - case_decide; [auto|]. right. left. split; [done|]. split; [done|]. lia.
    - case_decide; auto. }
  destruct (resetPrevDiv_frame _ _ _ E0) as (Hs0 & Hsh0 & _ & _ & _ & Hr0 & _).
  pose proof (resetPrevDiv_zIndex _ _ _ E0) as Hz0.
  assert (∀ e, zIndexOf w1 e = zIndexOf w0 e) as Hsame
    by (intros e; destruct Hw1 as [[-> _]|[[-> _]|[->| [-> _]]]]; done).
  assert (triggered ev w w1 = changed w w1) as -> by (by destruct Hev as [-> | ->]).
  split; [destruct Hw1 as [[-> _]|[[-> _]|[->| [-> _]]]]; done|].
  split; [destruct Hw1 as [[-> ?]|[[-> ?]|[->| [-> ?]]]]; simpl; lia|].
  split; [destruct Hw1 as [[-> ?]|[[-> ?]|[->| [-> ?]]]]; simpl; lia|].
  split; [intros e; rewrite Hsame, Hz0; repeat case_decide; naive_solver|].
  unfold layoutChanged, changed; simpl.
  destruct Hw1 as [[-> ?]|[[-> [? ?]]|[->| [-> ?]]]]; simpl.
  - left. rewrite (bool_decide_eq_false_2 (step w = step w - 1)) by lia. done.
  - right. rewrite Hs0, Hsh0, !bool_decide_eq_true_2 by done. simpl.
    repeat split; auto.
  - rewrite Hs0, (bool_decide_eq_true_2 (step w = step w)) by done. simpl.
    destruct (show w) eqn:Hshow; simpl; [by left|].
    right. repeat split; auto.
  - left. rewrite (bool_decide_eq_false_2 (step w = step w + 1)) by lia. done.
Qed.

(** Every event of the host and every use of a control, offered or not,
    keeps the invariant, save Previous on the first step of a visible
    tour. *)
Lemma consistent_dispatch_any ev w w' :
  consistent w →
  hostAdmits w ev = true → previousOnVisibleFirstStep w ev = false →
  dispatch ev w = Some w' →
  consistent w'.
Proof.
  intros Hc Hadm Hex E.
  assert (∀ nav, ev = nav → nav = ClickPrevious ∨ nav = ClickNext →
                 consistent w') as Hnav.
  { intros nav -> Hev.
    destruct (dispatch_priorities _ _ _ E) as (w1 & E1 & Hs & Hsh & Hr & Hz).
    pose proof (cons_ready _ Hc) as [Hlt Hlen].
    destruct (handle_navigation_any nav w w1 Hev E1)
      as (Hr1 & Hstep & Hnolast & Hz1 & [HL | (HL & Hs1 & Hsh1 & Hwhy)]).
    - apply (consistent_step w w' true true); try done.
      + unfold ready. rewrite Hs, Hr, Hr1. split; lia.
      + rewrite Hr, Hr1. apply (cons_distinct _ Hc).
      + intros e. by rewrite Hz, HL, Hz1.
      + intros e Hreg Hel. left. split; [done|].
        apply (cons_only _ Hc); [|done].
        eapply registered_same; [|done]. congruence.
      + auto.
    - assert (show w = false) as Hhid.
      { destruct Hwhy as [?|[-> H0]]; [done|].
        simpl in Hex. rewrite H0 in Hex. rewrite bool_decide_eq_true_2 in Hex by done.
        by destruct (show w). }
      apply (consistent_step w w' true false); try done.
      + unfold ready. rewrite Hs, Hr, Hr1. split; lia.
      + rewrite Hr, Hr1. apply (cons_distinct _ Hc).
      + intros e. by rewrite Hz, HL, Hz1.
      + intros e Hreg Hel. left. split; [done|].
        apply (cons_only _ Hc); [|done].
        eapply registered_same; [|done]. congruence.
      + intros Hw'. congruence. }
  destruct (dispatch_priorities _ _ _ E) as (w1 & E1 & Hs & Hsh & Hr & Hz).
  pose proof (cons_ready _ Hc) as [Hlt Hlen].
  destruct ev; simpl in E1;
    [ | | by apply (Hnav ClickPrevious); auto
        | by apply (Hnav ClickNext); auto | .. ].
  - (* Close *)
    unfold onClose in E1. simplify_eq. simpl in *.
    apply (consistent_step w w' false (show w)); try done.
    + unfold ready. rewrite Hs, Hr. done.
    + rewrite Hr. apply (cons_distinct _ Hc).
    + intros e. rewrite Hz. unfold layoutChanged; simpl.
      rewrite (bool_decide_eq_true_2 (step w = step w)) by done.
      destruct (show w); simpl; repeat case_decide; naive_solver.
    + intros e Hreg Hel. right. rewrite Hs, Hr.
      apply (cons_only _ Hc); [|done]. by eapply registered_same.
    + by rewrite Hsh.
  - (* details link *)
    unfold onToggleDetails in E1. simplify_eq. simpl in *.
    apply (consistent_step w w' false false); try done.
    + unfold ready. rewrite Hs, Hr. done.
    + rewrite Hr. apply (cons_distinct _ Hc).
    + intros e. rewrite Hz. unfold layoutChanged; simpl.
      rewrite !bool_decide_eq_true_2 by done. simpl.
      repeat case_decide; naive_solver.
    + intros e Hreg Hel. right. rewrite Hs, Hr.
      apply (cons_only _ Hc); [|done]. by eapply registered_same.
    + intros Hw'. right. rewrite Hs, Hr. by rewrite <- Hsh.
  - (* the host: as for the rendered controls *)
    by apply (consistent_dispatch HostShow w w').
  - by apply (consistent_dispatch (HostDetailsEntered b) w w').
  - by apply (consistent_dispatch (HostRegister i e) w w').
  - by apply (consistent_dispatch (HostUnregister i) w w').
Qed.

Lemma tourReachable_consistent w : tourReachable w → consistent w.
Proof.
  induction 1 as [w0 w Hinit Hmount | w ev w' _ IH Hallowed Hstep].
  - by eapply consistent_mount.
  - apply andb_true_iff in Hallowed as [Hadm Hex].
    apply negb_true_iff in Hex. by eapply consistent_dispatch_any.
Qed.

(** C8: in every visible state reached from a mount, at most one
    registered node carries the elevated priority; the node of the current
    step carries it when one is registered, and no registered node does
    when none is.  The reachable states are those that the rendered
    controls and the host bring about, and more generally those reached by
    any use of the controls (Next while disabled, a click on the hidden
    tour) other than Previous on the first step of a visible tour, which
    the component renders hidden. *)
Theorem one_emphasis_when_visible w :
  uiReachable w ∨ tourReachable w → show w = true → emphasisOk w.
Proof.
  intros Hreach Hshow. apply consistent_emphasisOk; [|done].
  apply tourReachable_consistent.
  destruct Hreach as [Hui|Htour]; [by apply uiReachable_tourReachable | done].
Qed.

(** *** Further properties of the controls *)

(** What Next does to the React state, step by step. *)
Lemma next_result w :
  ready w →
  ∃ w', next w = Some w' ∧ ready w'
    ∧ step w' = (if decide (step w + 1 = length tutorialSteps)
                 then step w else step w + 1)
    ∧ show w' = (if decide (step w + 1 = length tutorialSteps)
                 then false else show w).
Proof.
  intros Hr. destruct (onNext_total w Hr) as (w0 & E0 & E1).
  destruct (resetPrevDiv_frame _ _ _ E0) as (Hs0 & Hsh0 & _ & _ & _ & Hr0 & _).
  assert (ready (if decide (step w + 1 = length tutorialSteps)
                 then setShow false w0 else setStep (step w + 1) w0)) as Hr1.
  { destruct Hr as [Hs Hl]. unfold ready.
    case_decide; simpl; rewrite ?Hs0, Hr0; lia. }
  destruct (dispatch_total ClickNext w _ E1 Hr1) as [w' E].
  exists w'. split; [done|].
  destruct (dispatch_inv _ _ _ E) as (w1 & E1' & Hs & Hsh & _ & _ & Hrefs & _).
  simpl in E1'. rewrite E1 in E1'. simplify_eq.
  split; [eapply ready_frame; [exact Hs | exact Hrefs | exact Hr1]|].
  rewrite Hs, Hsh. case_decide; simpl; split; congruence.
Qed.

Lemma previous_result w :
  ready w →
  ∃ w', previous w = Some w' ∧ ready w'
    ∧ step w' = step w - 1 ∧ show w' = show w.
Proof.
  intros Hr. destruct (onPrevious_total w Hr) as (w0 & E0 & E1).
  destruct (resetPrevDiv_frame _ _ _ E0) as (Hs0 & Hsh0 & _ & _ & _ & Hr0 & _).
  assert (ready (if decide (step w ≠ 0)
                 then setStep (step w - 1) w0 else w0)) as Hr1.
  { destruct Hr as [Hs Hl]. unfold ready.
    case_decide; simpl; rewrite ?Hs0, Hr0; lia. }
  destruct (dispatch_total ClickPrevious w _ E1 Hr1) as [w' E].
  exists w'. split; [done|].
  destruct (dispatch_inv _ _ _ E) as (w1 & E1' & Hs & Hsh & _ & _ & Hrefs & _).
  simpl in E1'. rewrite E1 in E1'. simplify_eq.
  split; [eapply ready_frame; [exact Hs | exact Hrefs | exact Hr1]|].
  rewrite Hs, Hsh. case_decide; simpl; split; try congruence; lia.
Qed.

Lemma toggleDetails_eq w :
  toggleDetails w = Some (setShowDetails (negb (showDetails w)) w).
Proof.
  unfold toggleDetails, dispatch, handle, onToggleDetails; simpl.
  rewrite settle_layout by (simpl; by rewrite bool_decide_eq_true_2).
  unfold layoutChanged; simpl. by rewrite !bool_decide_eq_true_2.
Qed.

(** X1: the Close button on a visible tour hides it, keeps the step and
    the details toggle, leaves the node of the current step at the
    baseline priority and writes no other priority. *)
Theorem close_hides_and_clears w :
  ready w → show w = true →
  ∃ w', close w = Some w'
    ∧ show w' = false ∧ step w' = step w
    ∧ showDetails w' = showDetails w
    ∧ (∀ e, tutorialRefs w !! step w = Some (Some e) →
            zIndexOf w' e = baseline_priority)
    ∧ (∀ e, tutorialRefs w !! step w ≠ Some (Some e) →
            zIndexOf w' e = zIndexOf w e).
Proof.
  intros Hr Hshow.
  destruct (dispatch_total ClickClose w (setShow false w)) as [w' E];
    [done | done |].
  exists w'. split; [done|].
  destruct (dispatch_inv _ _ _ E) as (w1 & E1 & Hs & Hsh & Hd & _ & _ & _ & Hz).
  simpl in E1. unfold onClose in E1. simplify_eq. simpl in *.
  assert (layoutChanged (changed w (setShow false w)) = true) as HL.
  { unfold layoutChanged, changed; simpl. rewrite Hshow.
    by destruct (bool_decide (step w = step w)). }
  rewrite HL in Hz.
  repeat split; try done.
  - intros e He. rewrite Hz, decide_True by done. done.
  - intros e He. rewrite Hz, decide_False by naive_solver. done.
Qed.

(** X2: the details link flips the toggle and touches nothing else (no
    priority, no tooltip style, no scroll); used twice it gives back the
    very state it started from. *)
Theorem toggle_details_twice w :
  (∃ w', toggleDetails w = Some w'
     ∧ showDetails w' = negb (showDetails w)
     ∧ step w' = step w ∧ show w' = show w
     ∧ zIndex w' = zIndex w ∧ tooltipStyle w' = tooltipStyle w
     ∧ scrolled w' = scrolled w)
  ∧ toggleDetails w ≫= toggleDetails = Some w.
Proof.
  split.
  - eexists. split; [apply toggleDetails_eq|]. done.
  - rewrite toggleDetails_eq; simpl. rewrite toggleDetails_eq; simpl.
    f_equal. destruct w; unfold setShowDetails; simpl.
    by rewrite negb_involutive.
Qed.

(** X3: the four controls never throw from a state whose step is in the
    catalog and whose registry has a slot for every step, and they end in
    such a state again: the step index stays below the catalog length. *)
Theorem controls_keep_ready ev w :
  ready w →
  ev = ClickClose ∨ ev = ClickDetails ∨ ev = ClickPrevious ∨ ev = ClickNext →
  ∃ w', dispatch ev w = Some w' ∧ ready w'
        ∧ step w' < length tutorialSteps.
Proof.
  intros Hr Hev.
  assert (∃ w', dispatch ev w = Some w' ∧ ready w') as (w' & E & Hr').
  { destruct Hev as [-> | [-> | [-> | ->]]].
    - destruct (dispatch_total ClickClose w (setShow false w)) as [w' E];
        [done | done |].
      exists w'. split; [done|].
      destruct (dispatch_inv _ _ _ E) as (w1 & E1 & Hs & _ & _ & _ & Hrefs & _).
      simpl in E1. unfold onClose in E1. simplify_eq.
      by eapply ready_frame.
    - exists (setShowDetails (negb (showDetails w)) w).
      split; [apply toggleDetails_eq | done].
    - destruct (previous_result w Hr) as (w' & E & Hr' & _). by exists w'.
    - destruct (next_result w Hr) as (w' & E & Hr' & _). by exists w'. }
  exists w'. split; [done|]. split; [done|]. by destruct Hr'.
Qed.

(** X4: when the registry has no slot at all for the current step (the
    array is too short, so the read gives undefined rather than null),
    clearing the emphasis throws, and so do Previous, Next and mounting. *)
Theorem missing_slot_throws w :
  tutorialRefs w !! step w = None →
  resetPrevDiv (step w) w = None
  ∧ previous w = None ∧ next w = None ∧ mount w = None.
Proof.
  intros H.
  assert (resetPrevDiv (step w) w = None) as Hreset
    by (unfold resetPrevDiv; by rewrite H).
  assert (positionEffect w = None) as Hpos.
  { unfold positionEffect, emphasize. rewrite H.
    by destruct (tutorialSteps !! step w). }
  repeat split; try done.
  - unfold previous, dispatch, handle, onPrevious. by rewrite Hreset.
  - unfold next, dispatch, handle, onNext. by rewrite Hreset.
  - unfold mount, settle, commit; simpl. by rewrite Hpos.
Qed.

(** X5: every run of the layout effect issues exactly one smooth scroll,
    aligned to the position of the step; on a centered step the tooltip
    is the receiver even when a node is registered, it is placed
    absolutely, and its order is left as it was. *)
Theorem layout_scrolls_once w :
  ready w →
  ∃ w' s call,
    positionEffect w = Some w' ∧ tutorialSteps !! step w = Some s
    ∧ scrolled w' = scrolled w ++ [call]
    ∧ scroll_behavior call = "smooth"
    ∧ scroll_block call = block_name (position s)
    ∧ (position s = pos_center →
       scroll_target call = TooltipNode
       ∧ tooltipStyle w' =
           mkStyle "absolute" "translate(-50%, -50%)"
                   (css_order (tooltipStyle w))).
Proof.
  intros [Hs Hr].
  destruct (lookup_lt_is_Some_2 tutorialSteps (step w) Hs) as [s Es].
  destruct (lookup_lt_is_Some_2 (tutorialRefs w) (step w)) as [d Ed]; [lia|].
  rewrite (positionEffect_eq _ _ _ Es Ed). unfold placeTooltip.
  destruct (decide (position s ≠ pos_center)) as [Hp|Hp].
  - eexists _, s, _. split; [done|]. split; [done|].
    split; [by destruct d|]. by repeat split.
  - assert (position s = pos_center) as Hc
      by (by destruct (decide (position s = pos_center))).
    eexists _, s, _. split; [done|]. split; [done|].
    split; [by destruct d|]. rewrite Hc. repeat split; by destruct d.
Qed.

(** *** The hidden tour *)

Lemma hiddenOk_dispatch ev w w' :
  hiddenOk w → offered w ev = true →
  dispatch ev w = Some w' → hiddenOk w'.
Proof.
  intros Hh Hoff E.
  destruct (dispatch_priorities _ _ _ E) as (w1 & E1 & Hs & Hsh & Hr & Hz).
  pose proof (offered_click _ _ Hoff) as Hclick.
  assert (layoutChanged (triggered ev w w1) = true → hiddenOk w') as Hlayout.
  { intros HL Hhid e He Hel. unfold elevated in Hel.
    rewrite Hz, HL, Hhid, decide_True in Hel by done. done. }
  destruct ev; simpl in E1, Hclick.
  - unfold onClose in E1. simplify_eq. apply Hlayout.
    unfold layoutChanged, changed; simpl. rewrite Hclick.
    by destruct (bool_decide (step w = step w)).
  - unfold onToggleDetails in E1. simplify_eq. simpl in *.
    intros Hhid. congruence.
  - destruct Hclick as [Hshow Hfirst].
    destruct (handle_navigation ClickPrevious w w1)
      as (_ & HL & _); [auto | done | done | done |]. by apply Hlayout.
  - destruct (handle_navigation ClickNext w w1)
      as (_ & HL & _); [auto | done | done | done |]. by apply Hlayout.
  - simplify_eq. simpl in *. intros Hhid. congruence.
  - simplify_eq. simpl in *. intros Hhid e He Hel.
    unfold elevated in Hel. rewrite Hz in Hel.
    unfold layoutChanged in Hel; simpl in Hel.
    rewrite !bool_decide_eq_true_2 in Hel by done. simpl in Hel.
    apply (Hh ltac:(congruence) e); [congruence | done].
  - simplify_eq. apply Hlayout. unfold layoutChanged; simpl. apply orb_true_r.
  - simplify_eq. apply Hlayout. unfold layoutChanged; simpl. apply orb_true_r.
Qed.

Lemma uiReachable_hiddenOk w : uiReachable w → hiddenOk w.
Proof.
  induction 1 as [w0 w Hinit Hmount | w ev w' _ IH Hallowed Hstep].
  - unfold mount in Hmount. intros Hhid e He Hel. unfold elevated in Hel.
    destruct (settle_frame _ _ _ Hmount) as (Hs & _ & _ & Hr & _).
    rewrite (settle_zIndex _ _ _ Hmount), Hhid in Hel. simpl in Hel.
    rewrite Hs, Hr in He. rewrite decide_True in Hel by auto. done.
  - apply andb_true_iff in Hallowed as [_ Hoff].
    by eapply hiddenOk_dispatch.
Qed.

(** X6: in every hidden state reached from a mount through the rendered
    controls and the host, no registered node carries the elevated
    priority. *)
Theorem hidden_tour_raises_nothing w :
  uiReachable w → show w = false →
  ∀ e, registered w e → ¬ elevated w e.
Proof.
  intros Hreach Hhid e Hreg Hel.
  pose proof (uiReachable_consistent _ Hreach) as Hc.
  apply (uiReachable_hiddenOk _ Hreach Hhid e); [|done].
  by apply (cons_only _ Hc).
Qed.

(** *** Walking the tour *)

Lemma nextTimes_snoc k w :
  nextTimes (S k) w = nextTimes k w ≫= next.
Proof.
  revert w. induction k as [|k IH]; intros w.
  - simpl. by destruct (next w).
  - change (nextTimes (S (S k)) w) with (next w ≫= nextTimes (S k)).
    change (nextTimes (S k) w) with (next w ≫= nextTimes k).
    destruct (next w) as [w1|]; [apply IH | done].
Qed.

Lemma nextTimes_advance k w :
  ready w → show w = true → step w + k < length tutorialSteps →
  ∃ w', nextTimes k w = Some w' ∧ ready w'
        ∧ show w' = true ∧ step w' = step w + k.
Proof.
  revert w. induction k as [|k IH]; intros w Hr Hshow Hk.
  - exists w. simpl. split; [done|]. split; [done|]. split; [done | lia].
  - destruct (next_result w Hr) as (w1 & E & Hr1 & Hs1 & Hsh1).
    rewrite decide_False in Hs1 by lia. rewrite decide_False in Hsh1 by lia.
    destruct (IH w1) as (w' & E' & Hr' & Hsh' & Hs'); [done | congruence | lia |].
    exists w'. simpl. rewrite E; simpl.
    split; [done|]. split; [done|]. split; [done | lia].
Qed.

(** X7: on a visible tour, Next used k times moves k steps forward and
    keeps the tour visible as long as that stays inside the catalog, and
    used as many times as there are steps left (the current one counted)
    it ends hidden on the last step. *)
Theorem next_walks_to_the_end w :
  ready w → show w = true →
  (∀ k, step w + k < length tutorialSteps →
        ∃ w', nextTimes k w = Some w' ∧ show w' = true
              ∧ step w' = step w + k)
  ∧ ∃ w', nextTimes (length tutorialSteps - step w) w = Some w'
          ∧ show w' = false ∧ step w' + 1 = length tutorialSteps.
Proof.
  intros Hr Hshow. split.
  - intros k Hk.
    destruct (nextTimes_advance k w Hr Hshow Hk) as (w' & E & _ & Hsh & Hs).
    by exists w'.
  - pose proof Hr as [Hlt _].
    replace (length tutorialSteps - step w)
      with (S (length tutorialSteps - step w - 1)) by lia.
    rewrite nextTimes_snoc.
    destruct (nextTimes_advance (length tutorialSteps - step w - 1) w)
      as (w1 & E & Hr1 & Hsh1 & Hs1); [done | done | lia |].
    rewrite E; simpl.
    destruct (next_result w1 Hr1) as (w' & E' & _ & Hs' & Hsh').
    rewrite decide_True in Hs' by lia. rewrite decide_True in Hsh' by lia.
    exists w'. repeat split; try done. lia.
Qed.

(** *** The order of the inline tooltips *)

Lemma filter_center_split (l : list Step) :
  length (filter (λ s, position s = pos_center) l)
  + length (filter (λ s, position s ≠ pos_center) l) = length l.
Proof.
  induction l as [|s l IH]; [done|].
  rewrite !filter_cons. repeat case_decide; simpl; try done; lia.
Qed.

Lemma filter_take_mono (l : list Step) i j :
  i ≤ j →
  length (filter (λ s, position s ≠ pos_center) (take i l))
  ≤ length (filter (λ s, position s ≠ pos_center) (take j l)).
Proof.
  revert i j. induction l as [|s l IH]; intros i j Hij.
  - by rewrite !take_nil.
  - destruct i as [|i]; [simpl; lia|]. destruct j as [|j]; [lia|].
    simpl. rewrite !filter_cons.
    specialize (IH i j ltac:(lia)). case_decide; simpl; lia.
Qed.

(** X8: the order of a step of the catalog is one more than the number of
    inline (not centered) steps before it; so an inline step has a smaller
    order than every later step, and the inline tooltips are numbered
    1, 2, 3, ... in catalog order. *)
Theorem order_counts_inline_steps :
  (∀ i, i ≤ length tutorialSteps →
        orderOf i = (1 + Z.of_nat (inlineBefore i))%Z)
  ∧ (∀ i j s, i < j → j ≤ length tutorialSteps →
       tutorialSteps !! i = Some s → position s ≠ pos_center →
       (orderOf i < orderOf j)%Z).
Proof.
  assert (∀ i, i ≤ length tutorialSteps →
               orderOf i = (1 + Z.of_nat (inlineBefore i))%Z) as Horder.
  { intros i Hi. unfold orderOf, inlineBefore.
    rewrite centersBefore_count. unfold centerCount.
    pose proof (filter_center_split (take i tutorialSteps)) as Hsplit.
    rewrite length_take_le in Hsplit by done. lia. }
  split; [done|].
  intros i j s Hij Hj Es Hp.
  rewrite !Horder by lia.
  assert (inlineBefore (S i) = inlineBefore i + 1) as Hnext.
  { unfold inlineBefore. rewrite (take_S_r _ _ _ Es), filter_app, length_app.
    rewrite filter_cons, decide_True by done. done. }
  pose proof (filter_take_mono tutorialSteps (S i) j ltac:(lia)) as Hmono.
  unfold inlineBefore in *. lia.
Qed.

(** *** What is rendered *)

Lemma append_empty_r (s : string) : s +:+ "" = s.
Proof.
  induction s as [|a s IH]; [done|].
  change (String a (s +:+ "") = String a s). by rewrite IH.
Qed.

Lemma render_eq w s :
  tutorialSteps !! step w = Some s →
  render w =
    Some (mkView
            (negb (show w)) (title s) (step w + 1, length tutorialSteps)
            (description s +:+
               (if showDetails w
                then default ""
                       (info_text <$>
                          find (λ info, bool_decide (info_title info = title s))
                               tooltip)
                else ""))
            (match info_text <$>
                     find (λ info, bool_decide (info_title info = title s))
                          tooltip with
             | Some text => bool_decide (text = "")
             | None => true
             end)
            (if showDetails w then "fewer details" else "more details...")
            (bool_decide (step w = 0))
            (if decide (step w + 1 = length tutorialSteps)
             then "Finish" else "Next")
            (negb (if decide (title s = "Meal Plan Info")
                   then areDetailsEntered w else true))).
Proof.
  intros Es. unfold render, moreDetails.
  rewrite (isStepComplete_eq _ _ Es), Es. done.
Qed.

(** X9: a step without an entry in the dictionary is rendered with its
    description alone, whatever the details toggle says, and its details
    link is hidden and cannot be used; a step with an entry is rendered
    with the entry's text appended exactly when the toggle is on, and its
    link is hidden only when that text is empty. *)
Theorem details_follow_the_dictionary w s :
  tutorialSteps !! step w = Some s →
  ∃ v, render w = Some v
    ∧ (find (λ info, bool_decide (info_title info = title s)) tooltip = None →
       view_text v = description s ∧ view_toggleHidden v = true
       ∧ offered w ClickDetails = false)
    ∧ (∀ info,
         find (λ info, bool_decide (info_title info = title s)) tooltip
           = Some info →
         view_text v =
           description s +:+ (if showDetails w then info_text info else "")
         ∧ (view_toggleHidden v = true ↔ info_text info = "")).
Proof.
  intros Es. eexists. split; [by apply render_eq|]. simpl. split.
  - intros Hnone. rewrite Hnone. simpl.
    split; [destruct (showDetails w); apply append_empty_r|].
    split; [done|]. unfold offered. rewrite (render_eq _ _ Es). simpl.
    rewrite Hnone. simpl. apply andb_false_r.
  - intros info Hinfo. rewrite Hinfo. simpl. split; [done|].
    by rewrite bool_decide_eq_true.
Qed.

(** X10: the heading counts the current step from one out of the catalog
    length; the advance control reads Finish exactly on the last step,
    where using it hides the tour and keeps the step, and reads Next
    everywhere else, where using it moves one step on and keeps the tour
    as visible as it was; Previous is hidden exactly on the first step. *)
Theorem finish_label_hides w :
  ready w →
  ∃ v w', render w = Some v ∧ next w = Some w'
    ∧ view_counter v = (step w + 1, length tutorialSteps)
    ∧ (view_nextTitle v = "Finish" ↔ step w + 1 = length tutorialSteps)
    ∧ (view_nextTitle v = "Next" ↔ step w + 1 ≠ length tutorialSteps)
    ∧ (view_nextTitle v = "Finish" → show w' = false ∧ step w' = step w)
    ∧ (view_nextTitle v = "Next" →
       step w' = step w + 1 ∧ show w' = show w)
    ∧ (view_prevHidden v = true ↔ step w = 0).
Proof.
  intros Hr. pose proof Hr as [Hlt _].
  destruct (lookup_lt_is_Some_2 tutorialSteps (step w) Hlt) as [s Es].
  destruct (next_result w Hr) as (w' & E & _ & Hs & Hsh).
  eexists _, w'. split; [by apply render_eq|]. split; [done|]. simpl.
  split; [done|]. rewrite bool_decide_eq_true.
  case_decide as Hlast; repeat split; try done; try lia.
Qed.

End Tutorial.

(** ** The sample tour *)

Lemma sample_ready i visible expanded :
  i < 4 → ready sampleSteps (sampleWorld i visible expanded).
Proof. intros Hi. unfold ready; simpl. lia. Qed.

Lemma sample_initial i visible :
  i < 4 → initial sampleSteps (sampleWorld i visible false).
Proof.
  intros Hi. split; simpl; [lia | done | done | |].
  - intros [|[|[|[|j]]]] [|[|[|[|k]]]] e Hj Hk; simplify_eq/=; done.
  - intros [|[|[|[|j]]]] e Hj; simplify_eq/=; done.
Qed.

(** C1 on the sample tour, mounted on an empty store. *)
Lemma auto_activation_once_witness :
  ∃ w', mount sampleSteps (sampleWorld 0 false false) = Some w'
        ∧ show w' = true ∧ isNewUser w' = false.
Proof.
  destruct (auto_activation_once sampleSteps (sampleWorld 0 false false))
    as (Hfresh & w' & E & Ht & _ & Hn & _ & _).
  { unfold ready; simpl; lia. }
  exists w'. split; [exact E|]. split; [|exact Hn].
  apply Ht, Hfresh. reflexivity.
Defined.

(** C2 on the last step of the sample tour. *)
Lemma next_advances_or_finishes_witness :
  ∃ w', next sampleSteps (sampleWorld 3 true false) = Some w'
        ∧ show w' = false ∧ step w' = 3
        ∧ close sampleSteps (sampleWorld 3 true false) = Some w'.
Proof.
  destruct (next_advances_or_finishes sampleSteps (sampleWorld 3 true false))
    as (w' & E & Hlast & _).
  { unfold ready; simpl; lia. }
  destruct Hlast as (Hsh & Hs & Hclose); [reflexivity|].
  exists w'. split; [exact E|]. split; [exact Hsh|]. split; [exact Hs|].
  apply Hclose. reflexivity.
Defined.

(** C3 on the gated step of the sample tour, the form not yet filled. *)
Lemma validation_gate_fail_open_witness :
  isStepComplete sampleSteps (sampleWorld 1 true false) = Some false
  ∧ offered sampleSteps sampleTooltip (sampleWorld 1 true false) ClickNext
    = false.
Proof.
  destruct (validation_gate_fail_open sampleSteps sampleTooltip
              (sampleWorld 1 true false)
              (mkStep "Meal Plan Info" "Enter your plan." pos_start))
    as (_ & Hrule & v & complete & _ & Ec & _ & Hoff).
  { reflexivity. }
  assert (isStepComplete sampleSteps (sampleWorld 1 true false) = Some false)
    as E by (apply Hrule; reflexivity).
  split; [exact E|]. apply Hoff. congruence.
Defined.

(** C4 on the third step of the sample tour. *)
Lemma previous_moves_back_witness :
  ∃ w', previous sampleSteps (sampleWorld 2 true false) = Some w'
        ∧ show w' = true ∧ step w' + 1 = 2.
Proof.
  destruct (previous_moves_back sampleSteps (sampleWorld 2 true false))
    as (w' & E & Hsh & _ & Hs).
  { unfold ready; simpl; lia. }
  exists w'. split; [exact E|]. split; [exact Hsh|]. apply Hs. simpl. lia.
Defined.

(** C5 on the sample tour: the steps 1, 2 and 3 get the orders 1, 2, 3. *)
Lemma inline_order_skips_centers_witness :
  (∃ w', positionEffect sampleSteps (sampleWorld 1 true false) = Some w'
         ∧ css_order (tooltipStyle w') = "1")
  ∧ (∃ w', positionEffect sampleSteps (sampleWorld 2 true false) = Some w'
           ∧ css_order (tooltipStyle w') = "2")
  ∧ (∃ w', positionEffect sampleSteps (sampleWorld 3 true false) = Some w'
           ∧ css_order (tooltipStyle w') = "3").
Proof.
  destruct (inline_order_skips_centers sampleSteps) as [_ H].
  repeat split.
  - apply (H eq_refl (sampleWorld 1 true false) ltac:(simpl; lia) 1 eq_refl); auto.
  - apply (H eq_refl (sampleWorld 2 true false) ltac:(simpl; lia) 2 eq_refl); auto.
  - apply (H eq_refl (sampleWorld 3 true false) ltac:(simpl; lia) 3 eq_refl); auto.
Defined.

(** C6, the claim as stated fails: on the second step of the sample tour,
    placed at start and with its node registered, the tooltip is what is
    scrolled into view, not the node. *)
Lemma scroll_start_targets_tooltip :
  ∃ s w',
    sampleSteps !! 1 = Some s ∧ position s = pos_start
    ∧ tutorialRefs (sampleWorld 1 true false) !! 1 = Some (Some 11)
    ∧ positionEffect sampleSteps (sampleWorld 1 true false) = Some w'
    ∧ scrolled w' = [mkScroll TooltipNode "smooth" "start"]
    ∧ scrolled w' ≠ [mkScroll (HostNode 11) "smooth" "start"].
Proof.
  eexists _, _. repeat split; try reflexivity. discriminate.
Qed.

(** C6 as amended, on the third step of the sample tour: placed at end
    and with its node registered, the node is scrolled into view. *)
Lemma scroll_target_choice_witness :
  ∃ w', positionEffect sampleSteps (sampleWorld 2 true false) = Some w'
        ∧ scrolled w' = [mkScroll (HostNode 12) "smooth" "end"].
Proof.
  destruct (scroll_target_choice sampleSteps (sampleWorld 2 true false)
              (mkStep "Menu" "Pick your meals." pos_end) (Some 12))
    as (w' & target & E & Hsc & Hend & _); [reflexivity | by right | reflexivity |].
  exists w'. split; [exact E|].
  rewrite Hsc, (Hend 12 eq_refl eq_refl). reflexivity.
Defined.

(** C7, the claim as stated fails: with the details expanded, Next from
    the third step and Previous from the third step change the step and
    leave the details expanded. *)
Lemma details_stay_expanded :
  (∃ w', next sampleSteps (sampleWorld 2 true true) = Some w'
         ∧ step w' = 3 ∧ show w' = true
         ∧ showDetails w' = true ∧ showDetails w' ≠ false)
  ∧ (∃ w', previous sampleSteps (sampleWorld 2 true true) = Some w'
           ∧ step w' = 1 ∧ show w' = true
           ∧ showDetails w' = true ∧ showDetails w' ≠ false).
Proof.
  split; eexists; (split; [vm_compute; reflexivity|]); repeat split; done.
Qed.

(** C7 as amended, on the third step of the sample tour. *)
Lemma navigation_keeps_details_witness :
  (∃ w', next sampleSteps (sampleWorld 2 true true) = Some w'
         ∧ step w' = 3 ∧ showDetails w' = true)
  ∧ (∃ w', previous sampleSteps (sampleWorld 2 true true) = Some w'
           ∧ step w' + 1 = 2 ∧ showDetails w' = true).
Proof.
  destruct (navigation_keeps_details sampleSteps (sampleWorld 2 true true))
    as [Hnext Hprev].
  { unfold ready; simpl; lia. }
  split.
  - destruct Hnext as (w' & E & Hs & Hd); [simpl; lia|].
    exists w'. split; [exact E|]. split; [exact Hs | exact Hd].
  - destruct Hprev as (w' & E & Hs & Hd); [simpl; lia|].
    exists w'. split; [exact E|]. split; [exact Hs | exact Hd].
Defined.

(** The one use of a control left out of [tourReachable] cannot be let
    in: the sample tour is mounted on an empty store, which shows it on
    step 0, and the handler of Previous, which is rendered hidden there,
    is invoked all the same.  The state is visible on step 0, whose node
    is registered, and that node is back at the baseline priority. *)
Lemma emphasis_lost_by_previous_on_first_step :
  ∃ w0 w,
    mount sampleSteps (sampleWorld 0 false false) = Some w0
    ∧ previous sampleSteps w0 = Some w
    ∧ reachable sampleSteps w
    ∧ show w = true ∧ step w = 0
    ∧ tutorialRefs w !! 0 = Some (Some 10)
    ∧ zIndexOf w0 10 = elevated_priority
    ∧ zIndexOf w 10 = baseline_priority
    ∧ ¬ emphasisOk w.
Proof.
  eexists _, _.
  split; [vm_compute; reflexivity|].
  split; [vm_compute; reflexivity|].
  split.
  { eapply reach_event with (ev := ClickPrevious).
    - eapply reach_mount; [apply (sample_initial 0 false); lia|].
      vm_compute; reflexivity.
    - reflexivity.
    - vm_compute; reflexivity. }
  repeat split; try reflexivity.
  intros (_ & Hcur & _). specialize (Hcur 10 eq_refl). discriminate Hcur.
Qed.

(** C8 on the sample tour after it is mounted on an empty store and Next
    is used once. *)
Lemma one_emphasis_when_visible_witness :
  ∃ w0 w,
    mount sampleSteps (sampleWorld 0 false false) = Some w0
    ∧ next sampleSteps w0 = Some w
    ∧ show w = true ∧ step w = 1
    ∧ emphasisOk w.
Proof.
  eexists _, _.
  split; [vm_compute; reflexivity|].
  split; [vm_compute; reflexivity|].
  split; [reflexivity|]. split; [reflexivity|].
  apply (one_emphasis_when_visible sampleSteps sampleTooltip); [|reflexivity].
  left. eapply reach_event with (ev := ClickNext).
  - eapply reach_mount; [apply (sample_initial 0 false); lia|].
    vm_compute; reflexivity.
  - reflexivity.
  - vm_compute; reflexivity.
Defined.

(** C9 on the last step of the sample tour, which has no node. *)
Lemma emphasis_skips_null_witness :
  resetPrevDiv 3 (sampleWorld 3 true false) = Some (sampleWorld 3 true false)
  ∧ emphasize (sampleWorld 3 true false) = Some (None, sampleWorld 3 true false).
Proof.
  destruct (emphasis_skips_null 3 (sampleWorld 3 true false))
    as (Hreset & Hraise & _); [reflexivity|].
  split; [exact Hreset | apply Hraise; reflexivity].
Defined.

(** C10 on the first step of the sample tour, its node raised. *)
Lemma previous_on_first_step_clears_witness :
  ∃ w', previous sampleSteps
          (assignZIndex 10 elevated_priority (sampleWorld 0 true false))
        = Some w'
        ∧ zIndexOf w' 10 = baseline_priority ∧ step w' = 0 ∧ show w' = true.
Proof.
  destruct (previous_on_first_step_clears sampleSteps
              (assignZIndex 10 elevated_priority (sampleWorld 0 true false)) 10)
    as (_ & w' & E & Hz & Hs & Hsh);
    [unfold ready; simpl; lia | reflexivity | reflexivity |].
  exists w'. split; [exact E|]. split; [exact Hz|]. split; [exact Hs | exact Hsh].
Defined.

(** X1 on the sample tour, visible on its second step. *)
Lemma close_hides_and_clears_witness :
  ∃ w', close sampleSteps (sampleWorld 1 true false) = Some w'
        ∧ show w' = false ∧ step w' = 1
        ∧ zIndexOf w' 11 = baseline_priority.
Proof.
  destruct (close_hides_and_clears sampleSteps (sampleWorld 1 true false))
    as (w' & E & Hsh & Hs & _ & Hz & _); [unfold ready; simpl; lia | reflexivity |].
  exists w'. split; [exact E|]. split; [exact Hsh|]. split; [exact Hs|].
  apply Hz. reflexivity.
Defined.

(** X3 on the sample tour: Next on its last step. *)
Lemma controls_keep_ready_witness :
  ∃ w', dispatch sampleSteps ClickNext (sampleWorld 3 true false) = Some w'
        ∧ step w' < 4.
Proof.
  destruct (controls_keep_ready sampleSteps ClickNext (sampleWorld 3 true false))
    as (w' & E & _ & Hlt); [unfold ready; simpl; lia | auto |].
  exists w'. split; [exact E | exact Hlt].
Defined.

(** X4 on the sample catalog with a registry of two slots, on step 2. *)
Lemma missing_slot_throws_witness :
  next sampleSteps
    (setTutorialRefs [Some 10; None] (sampleWorld 2 true false)) = None
  ∧ mount sampleSteps
      (setTutorialRefs [Some 10; None] (sampleWorld 2 true false)) = None.
Proof.
  destruct (missing_slot_throws sampleSteps
              (setTutorialRefs [Some 10; None] (sampleWorld 2 true false)))
    as (_ & _ & Hnext & Hmount); [reflexivity|].
  split; [exact Hnext | exact Hmount].
Defined.

(** X5 on the centered first step of the sample tour, its node registered. *)
Lemma layout_scrolls_once_witness :
  ∃ w', positionEffect sampleSteps (sampleWorld 0 true false) = Some w'
        ∧ scrolled w' = [mkScroll TooltipNode "smooth" "center"]
        ∧ css_position (tooltipStyle w') = "absolute".
Proof.
  destruct (layout_scrolls_once sampleSteps (sampleWorld 0 true false))
    as (w' & s & call & E & Es & Hsc & Hb & Hblock & Hcenter);
    [unfold ready; simpl; lia|].
  assert (s = mkStep "Welcome" "A short tour." pos_center) as ->
    by (simpl in Es; congruence).
  destruct Hcenter as [Ht Hstyle]; [reflexivity|].
  exists w'. split; [exact E|]. split.
  - rewrite Hsc. destruct call as [t b k]. simpl in *. subst. reflexivity.
  - rewrite Hstyle. reflexivity.
Defined.

(** X6 on the sample tour, mounted and then closed. *)
Lemma hidden_tour_raises_nothing_witness :
  ∃ w0 w,
    mount sampleSteps (sampleWorld 0 false false) = Some w0
    ∧ close sampleSteps w0 = Some w
    ∧ show w = false
    ∧ ∀ e, registered w e → ¬ elevated w e.
Proof.
  eexists _, _.
  split; [vm_compute; reflexivity|].
  split; [vm_compute; reflexivity|].
  split; [reflexivity|].
  apply (hidden_tour_raises_nothing sampleSteps sampleTooltip); [|reflexivity].
  eapply reach_event with (ev := ClickClose).
  - eapply reach_mount; [apply (sample_initial 0 false); lia|].
    vm_compute; reflexivity.
  - reflexivity.
  - vm_compute; reflexivity.
Defined.

(** X7 on the sample tour, from its first step. *)
Lemma next_walks_to_the_end_witness :
  ∃ w', nextTimes sampleSteps 4 (sampleWorld 0 true false) = Some w'
        ∧ show w' = false ∧ step w' + 1 = 4.
Proof.
  destruct (next_walks_to_the_end sampleSteps (sampleWorld 0 true false))
    as (_ & w' & E & Hsh & Hs); [unfold ready; simpl; lia | reflexivity |].
  exists w'. split; [exact E|]. split; [exact Hsh | exact Hs].
Defined.

(** X8 on the sample catalog: the second step comes before the fourth. *)
Lemma order_counts_inline_steps_witness :
  (orderOf sampleSteps 1 < orderOf sampleSteps 3)%Z
  ∧ orderOf sampleSteps 3 = 3%Z.
Proof.
  destruct (order_counts_inline_steps sampleSteps) as [Hcount Hlt].
  split.
  - apply (Hlt 1 3 (mkStep "Meal Plan Info" "Enter your plan." pos_start));
      [lia | simpl; lia | reflexivity | discriminate].
  - rewrite Hcount by (simpl; lia). reflexivity.
Defined.

(** X9 on the first step of the sample tour, which has no details. *)
Lemma details_follow_the_dictionary_witness :
  ∃ v, render sampleSteps sampleTooltip (sampleWorld 0 true true) = Some v
       ∧ view_text v = "A short tour." ∧ view_toggleHidden v = true.
Proof.
  destruct (details_follow_the_dictionary sampleSteps sampleTooltip
              (sampleWorld 0 true true)
              (mkStep "Welcome" "A short tour." pos_center))
    as (v & E & Hnone & _); [reflexivity|].
  destruct Hnone as (Ht & Hh & _); [reflexivity|].
  exists v. split; [exact E|]. split; [exact Ht | exact Hh].
Defined.

(** X10 on the last and on the third step of the sample tour. *)
Lemma finish_label_hides_witness :
  (∃ v w',
     render sampleSteps sampleTooltip (sampleWorld 3 true false) = Some v
     ∧ next sampleSteps (sampleWorld 3 true false) = Some w'
     ∧ view_nextTitle v = "Finish" ∧ view_counter v = (4, 4)
     ∧ show w' = false)
  ∧ (∃ v w',
       render sampleSteps sampleTooltip (sampleWorld 2 true false) = Some v
       ∧ next sampleSteps (sampleWorld 2 true false) = Some w'
       ∧ view_nextTitle v = "Next" ∧ view_counter v = (3, 4)
       ∧ step w' = 3 ∧ show w' = true).
Proof.
  split.
  - destruct (finish_label_hides sampleSteps sampleTooltip
                (sampleWorld 3 true false))
      as (v & w' & E & En & Hc & Hlabel & _ & Hfinish & _);
      [unfold ready; simpl; lia|].
    assert (view_nextTitle v = "Finish") as Hf by (apply Hlabel; reflexivity).
    exists v, w'. split; [exact E|]. split; [exact En|]. split; [exact Hf|].
    split; [exact Hc|]. apply (Hfinish Hf).
  - destruct (finish_label_hides sampleSteps sampleTooltip
                (sampleWorld 2 true false))
      as (v & w' & E & En & Hc & _ & Hlabel & _ & Hnext & _);
      [unfold ready; simpl; lia|].
    assert (view_nextTitle v = "Next") as Hn
      by (apply Hlabel; simpl; lia).
    destruct (Hnext Hn) as [Hs Hsh].
    exists v, w'. split; [exact E|]. split; [exact En|]. split; [exact Hn|].
    split; [exact Hc|]. split; [exact Hs | exact Hsh].
Defined.

(** * The day selector (component [DaySelector])

    A row of one button per weekday, each labelled with the first three
    letters of the day and shown selected or not after [daysSelected]. *)
Module DaySelector.

(** The text that a template literal prints for [b && s]: the string when
    [b] holds, the word false otherwise. *)
Definition andClass (b : bool) (s : string) : string :=
  if b then s else "false".

Definition selectedClass : string :=
  "bg-messiah-light-blue sm:hover:bg-messiah-light-blue-hover active:bg-messiah-light-blue-active".

Definition unselectedClass : string :=
  "bg-gray-300 sm:hover:bg-gray-200 active:bg-gray-400".

(** One rendered day: the wrapper, the button in it, the label, and the
    argument that a click hands to [onChange]. *)
Record DayButton := mkDayButton {
  day_key : nat;
  day_wrapperClass : string;
  day_buttonClass : string;
  day_label : string;
  day_onClick : nat
}.

Record View := mkView {
  view_class : string;
  view_buttons : list DayButton
}.

Section Component.

(** The constant [WEEKDAYS] of [static/constants]. *)
Variable WEEKDAYS : list string.

(** [WEEKDAYS.map((day) => day.slice(0, 3))] *)
Definition days : list string :=
  (λ day, String.substring 0 3 day) <$> WEEKDAYS.

(** The truth value of [daysSelected[i]]: an index outside the array reads
    undefined, which counts as false. *)
Definition isSelected (daysSelected : list bool) (i : nat) : bool :=
  default false (daysSelected !! i).

(** The component; [square] is optional and defaults to false. *)
Definition DaySelector (daysSelected : list bool) (square : option bool) : View :=
  let square := default false square in
  {| view_class :=
       "flex flex-row justify-center gap-2 " +:+ andClass (negb square) "w-full";
     view_buttons :=
       imap (λ i day,
               {| day_key := i;
                  day_wrapperClass := "flex-1 " +:+ andClass square "w-10";
                  day_buttonClass :=
                    "w-full p-1 h-10 " +:+ andClass square "w-10"
                    +:+ " rounded-lg flex items-center justify-center "
                    +:+ (if isSelected daysSelected i
                         then selectedClass else unselectedClass);
                  day_label := day;
                  day_onClick := i |})
            days |}.

(** ** Properties *)

Lemma substring_prefix (n : nat) (s : string) :
  ∃ rest, s = String.substring 0 n s +:+ rest
          ∧ String.length (String.substring 0 n s) = n `min` String.length s.
Proof.
  revert s. induction n as [|n IH]; intros s.
  - exists s. by destruct s.
  - destruct s as [|a s]; [by exists ""|].
    destruct (IH s) as (rest & Hrest & Hlen). exists rest. simpl.
    rewrite Hlen. split; [|done].
    change (String a s = String a (String.substring 0 n s +:+ rest)). by f_equal.
Qed.

Lemma buttons_lookup daysSelected square i :
  view_buttons (DaySelector daysSelected square) !! i =
    (λ day,
       mkDayButton i
         ("flex-1 " +:+ andClass (default false square) "w-10")
         ("w-full p-1 h-10 " +:+ andClass (default false square) "w-10"
          +:+ " rounded-lg flex items-center justify-center "
          +:+ (if isSelected daysSelected i
               then selectedClass else unselectedClass))
         (String.substring 0 3 day) i) <$> WEEKDAYS !! i.
Proof.
  unfold DaySelector, days; simpl.
  rewrite list_lookup_imap, list_lookup_fmap.
  by destruct (WEEKDAYS !! i).
Qed.

(** X11: there is one button per weekday, in the order of the week; the
    button of day i is labelled with a prefix of the day's name, of three
    characters or of the whole name when that is shorter, and a click on
    it hands i, an index of the week, to [onChange]. *)
Theorem buttons_follow_the_week daysSelected square :
  length (view_buttons (DaySelector daysSelected square)) = length WEEKDAYS
  ∧ ∀ i day, WEEKDAYS !! i = Some day →
      ∃ b rest,
        view_buttons (DaySelector daysSelected square) !! i = Some b
        ∧ day = day_label b +:+ rest
        ∧ String.length (day_label b) = 3 `min` String.length day
        ∧ day_onClick b = i ∧ day_key b = i ∧ i < length WEEKDAYS.
Proof.
  split.
  - unfold DaySelector, days; simpl. by rewrite length_imap, length_fmap.
  - intros i day Hday.
    destruct (substring_prefix 3 day) as (rest & Hrest & Hlen).
    eexists _, rest. rewrite buttons_lookup, Hday. simpl.
    split; [done|]. split; [done|]. split; [done|].
    split; [done|]. split; [done|]. by eapply lookup_lt_Some.
Qed.

(** X12: the button of day i is shown selected exactly when
    [daysSelected] holds true at i; a day beyond the end of
    [daysSelected] is shown unselected, entries beyond the week are
    ignored, and [square] has no say in it. *)
Theorem selection_follows_daysSelected daysSelected square i b :
  view_buttons (DaySelector daysSelected square) !! i = Some b →
  day_buttonClass b =
    "w-full p-1 h-10 " +:+ andClass (default false square) "w-10"
    +:+ " rounded-lg flex items-center justify-center "
    +:+ (if decide (daysSelected !! i = Some true)
         then selectedClass else unselectedClass)
  ∧ (length daysSelected ≤ i →
     day_buttonClass b =
       "w-full p-1 h-10 " +:+ andClass (default false square) "w-10"
       +:+ " rounded-lg flex items-center justify-center "
       +:+ unselectedClass)
  ∧ i < length WEEKDAYS.
Proof.
  rewrite buttons_lookup. intros Hb.
  destruct (WEEKDAYS !! i) as [day|] eqn:Hday; simplify_eq/=.
  split; [|split; [|by eapply lookup_lt_Some]].
  - unfold isSelected.
    destruct (daysSelected !! i) as [[]|]; simpl; by rewrite ?decide_True.
  - intros Hlen. unfold isSelected.
    by rewrite (lookup_ge_None_2 daysSelected i Hlen).
Qed.

End Component.

(** A week of day names. *)
Definition sampleWeek : list string :=
  ["Sunday"; "Monday"; "Tuesday"; "Wednesday"; "Thursday"; "Friday";
   "Saturday"].

(** X11 on the sample week: the button of Wednesday. *)
Lemma buttons_follow_the_week_witness :
  ∃ b, view_buttons (DaySelector sampleWeek [true; false] None) !! 3 = Some b
       ∧ day_label b = "Wed" ∧ day_onClick b = 3.
Proof.
  destruct (buttons_follow_the_week sampleWeek [true; false] None)
    as [_ H].
  destruct (H 3 "Wednesday" eq_refl) as (b & rest & Hb & Hday & Hlen & Hclick & _).
  exists b. split; [exact Hb|]. split; [|exact Hclick].
  vm_compute in Hb. injection Hb as <-. reflexivity.
Defined.

(** X12 on the sample week: Wednesday lies beyond a two-entry selection. *)
Lemma selection_follows_daysSelected_witness :
  ∃ b, view_buttons (DaySelector sampleWeek [true; false] None) !! 3 = Some b
       ∧ day_buttonClass b =
           "w-full p-1 h-10 false rounded-lg flex items-center justify-center "
           +:+ unselectedClass.
Proof.
  eexists. split; [reflexivity|].
  destruct (selection_follows_daysSelected sampleWeek [true; false] None 3 _
              eq_refl) as (_ & Hout & _).
  rewrite (Hout ltac:(simpl; lia)). reflexivity.
Defined.

End DaySelector.

(** * The meal table (component [MealTable])

    The header row, the sorted rows, the empty-table message and the
    notification that a click on a row's button raises.  What is handed
    through to [TableRow] untouched ([buttonIcon], [onCustomClick],
    [newCustomMealID]) is left out. *)
Module MealTable.

(** A cell of the header row: [TableCell] with its key, its text, the
    number given to [newImportanceIndex] and [isHeader]. *)
Record HeaderCell := mkCell {
  cell_key : nat;
  cell_data : string;
  cell_importance : nat;
  cell_isHeader : bool
}.

Section Component.

(** The type [Meal] with its field [name], the routine [sortMeals] of
    [lib/sortMeals] and the prop [createNotification]. *)
Variable Meal : Type.
Variable name : Meal → string.
Variable sortMeals : list Meal → string → bool → list Meal.
Variable createNotification : string → string.

Record Props := mkProps {
  data : list Meal;
  buttonTitle : option string;
  sortedBy : option string;
  sortDirection : option bool
}.

(** The state [message] and, as a log, the calls of the prop
    [buttonOnClick]. *)
Record State := mkState {
  message : string;
  buttonOnClick_calls : list Meal
}.

(** [useState({ text: '' })], nothing clicked yet. *)
Definition initialState : State := mkState "" [].

(** [['Location', 'Name', 'Price', buttonTitle ?? null]] *)
Definition headers (p : Props) : list (option string) :=
  [Some "Location"; Some "Name"; Some "Price"; buttonTitle p].

(** [sortedBy] after [if (sortedBy === undefined) sortedBy = headers[0]]. *)
Definition sortedByOrDefault (p : Props) : string :=
  match sortedBy p with
  | Some column => column
  | None => default "" (mjoin (headers p !! 0))
  end.

(** [sortMeals(data, sortedBy, sortDirection ?? false)] *)
Definition sortedData (p : Props) : list Meal :=
  sortMeals (data p) (sortedByOrDefault p) (default false (sortDirection p)).

(** The header row: a cell for a header that is not null, an empty
    fragment ([None]) for one that is. *)
Definition headerRow (p : Props) : list (option HeaderCell) :=
  imap (λ index header,
          (λ text,
             mkCell index text
                    (if decide (text = sortedByOrDefault p) then 5 else 4)
                    true) <$> header)
       (headers p).

(** [handleButtonClick(row)] *)
Definition handleButtonClick (st : State) (row : Meal) : State :=
  {| buttonOnClick_calls := buttonOnClick_calls st ++ [row];
     message := createNotification (name row) |}.

Record View := mkView {
  view_tableHidden : bool;               (* class [hidden] on the table *)
  view_header : list (option HeaderCell);
  view_rows : list (nat * Meal);         (* key and data of each row *)
  view_emptyHidden : bool;               (* class [hidden] on the message *)
  view_notification : string
}.

Definition render (p : Props) (st : State) : View :=
  {| view_tableHidden := negb (bool_decide (0 < length (data p)));
     view_header := headerRow p;
     view_rows := imap (λ index row, (index, row)) (sortedData p);
     view_emptyHidden := bool_decide (0 < length (data p));
     view_notification := message st |}.

(** ** Properties *)

(** X13: the header row shows Location, Name and Price and then the
    button title when one is given (an empty title too); each cell keeps
    the index of its header as key, and a cell is given importance 5
    exactly when its text is the sort column and 4 otherwise, so that
    with [sortedBy] left out Location is the highlighted one and Name and
    Price are not. *)
Theorem header_row_follows_sortedBy p :
  omap (fmap cell_data) (headerRow p)
    = ["Location"; "Name"; "Price"] ++ option_list (buttonTitle p)
  ∧ (∀ i cell, headerRow p !! i = Some (Some cell) →
       cell_key cell = i ∧ cell_isHeader cell = true
       ∧ headers p !! i = Some (Some (cell_data cell))
       ∧ (cell_importance cell = 5 ↔ cell_data cell = sortedByOrDefault p)
       ∧ (cell_importance cell = 4 ↔ cell_data cell ≠ sortedByOrDefault p))
  ∧ (sortedBy p = None →
     ∃ rest,
       headerRow p = Some (mkCell 0 "Location" 5 true)
                     :: Some (mkCell 1 "Name" 4 true)
                     :: Some (mkCell 2 "Price" 4 true) :: rest).
Proof.
  split; [by destruct p as [d [t|] sb sd]|]. split.
  - intros i cell. unfold headerRow. rewrite list_lookup_imap.
    destruct (headers p !! i) as [[text|]|] eqn:Eh; intros Hc; simplify_eq/=.
    repeat split; try done; case_decide; try done; intros; by simplify_eq.
  - intros Hnone. eexists. unfold headerRow, sortedByOrDefault.
    rewrite Hnone. simpl. reflexivity.
Qed.

Lemma clicks_calls (st : State) (rows : list Meal) :
  buttonOnClick_calls (foldl handleButtonClick st rows)
  = buttonOnClick_calls st ++ rows.
Proof.
  revert st. induction rows as [|row rows IH]; intros st; simpl.
  - by rewrite app_nil_r.
  - rewrite IH. simpl. by rewrite <- app_assoc.
Qed.

(** X14: after the buttons of some rows have been clicked one after the
    other, [buttonOnClick] has been called once with each of these rows,
    in the order of the clicks, and the notification shown is the one
    made from the name of the row clicked last. *)
Theorem clicks_notify_the_last_row p st (rows : list Meal) (last : Meal) :
  let st' := foldl handleButtonClick st (rows ++ [last]) in
  buttonOnClick_calls st' = buttonOnClick_calls st ++ rows ++ [last]
  ∧ message st' = createNotification (name last)
  ∧ view_notification (render p st') = createNotification (name last).
Proof.
  simpl. rewrite clicks_calls. split; [done|].
  rewrite foldl_app. simpl. done.
Qed.

(** X15: the table is hidden exactly when [data] is empty and the
    empty-table message exactly when it is not, whatever [sortMeals]
    returns; the rows shown are the result of [sortMeals], keyed by their
    place in it, and an omitted direction sorts descending ([false]) by
    the column Location when [sortedBy] is omitted too. *)
Theorem table_or_empty_message p st :
  (view_tableHidden (render p st) = true ↔ data p = [])
  ∧ (view_emptyHidden (render p st) = true ↔ data p ≠ [])
  ∧ view_tableHidden (render p st) = negb (view_emptyHidden (render p st))
  ∧ (view_rows (render p st)).*2 = sortedData p
  ∧ (view_rows (render p st)).*1 = seq 0 (length (sortedData p))
  ∧ (sortedBy p = None → sortDirection p = None →
     sortedData p = sortMeals (data p) "Location" false).
Proof.
  assert (bool_decide (0 < length (data p)) = true ↔ data p ≠ []) as Hne.
  { rewrite bool_decide_eq_true.
    destruct (data p); simpl; split; try done; lia. }
  split.
  { simpl. rewrite negb_true_iff, <- not_true_iff_false, Hne.
    destruct (data p); naive_solver. }
  split; [exact Hne|]. split; [done|]. simpl.
  assert (∀ l : list Meal,
            (imap (λ index row, (index, row)) l).*2 = l
            ∧ (imap (λ index row, (index, row)) l).*1 = seq 0 (length l))
    as Himap.
  { intros l. rewrite !fmap_imap. unfold compose; simpl.
    induction l as [|x l [IH2 IH1]] using rev_ind; [done|].
    rewrite !imap_app, IH2, IH1, length_app, seq_app. simpl.
    by rewrite Nat.add_0_r. }
  split; [apply Himap|]. split; [apply Himap|].
  intros Hs Hd. unfold sortedData, sortedByOrDefault. by rewrite Hs, Hd.
Qed.

End Component.

End MealTable.
